(** * Seriate: embedding of the seriation core and of its orchestration

    The development follows the JavaScript sources:
    - [Seriation]  : lib/seriation.js  (cosineDistance, buildDistanceMatrix, seriate)
    - [Embeddings] : the OpenAI client (fetchEmbeddings)
    - [Db]         : lib/db.js         (getEmbeddings, storeEmbeddings)
    - [Background] : the background script (handleSeriate)
    - [Column]     : api/seriateColumn/implementation.js (setRanks, sortCallback)
    - [Extract]    : the OpenAI client (extractMessageText, extractBodyText)
    - [Viewer]     : viewer/viewer.js (the filter of init)
    - [Machine]    : the loops of seriate as a transition system

    JavaScript numbers are IEEE 754 binary64 values; they are modelled by
    Rocq's primitive floats, whose operations are the same correctly rounded
    binary64 operations. *)

From Stdlib Require Import ZArith Lia Floats.
From stdpp Require Import base tactics option list gmap strings sorting pretty.

Set Warnings "-inexact-float,-clear-no-such-hyp".

(** ** JavaScript values and control flow *)

Module JS.

(** Values thrown by the modelled code. *)
Inductive error : Type :=
| TypeError
| ApiError (status : nat) (body : string)
| PlainError (message : string).

(** A call either returns a value or throws. *)
Inductive outcome (A : Type) : Type :=
| Returns (a : A)
| Throws (e : error).
Arguments Returns {A} a.
Arguments Throws {A} e.

Definition bind {A B : Type} (m : outcome A) (k : A → outcome B) : outcome B :=
  match m with
  | Returns a => k a
  | Throws e => Throws e
  end.

#[global] Instance outcome_bind : MBind outcome := λ A B k m, bind m k.
#[global] Instance outcome_ret : MRet outcome := @Returns.

(** A [for] loop whose body may throw. *)
Fixpoint foldM {A B : Type} (f : A → B → outcome A) (a : A) (l : list B) : outcome A :=
  match l with
  | [] => Returns a
  | x :: l' => a' ← f a x; foldM f a' l'
  end.

(** [v[i]] used as a number: reading past the end gives [undefined], which
    arithmetic and comparisons coerce to NaN. *)
Definition num_at (v : list float) (i : nat) : float := default nan (v !! i).

(** [obj[key] = value] on a plain object ([{}]) holding numbers. The key
    ["__proto__"] is the accessor inherited from [Object.prototype]; its
    setter ignores a value that is neither an object nor [null], so the
    assignment creates no own property. *)
Definition obj_set (obj : gmap string Z) (key : string) (value : Z) : gmap string Z :=
  if decide (key = "__proto__") then obj else <[key:=value]> obj.

(** A property key computed from an array read: [undefined] becomes the
    string ["undefined"]. *)
Definition prop_key (v : option string) : string := default "undefined" v.

(** [arr[i]] for a number [i] that may be negative. *)
Definition index_Z {A : Type} (arr : list A) (i : Z) : option A :=
  if decide (0 ≤ i)%Z then arr !! Z.to_nat i else None.

End JS.
Import JS.

(** ** lib/seriation.js *)

Module Seriation.

(** One iteration of the loop of [cosineDistance]. *)
Definition cosine_step (a b : list float) (acc : float * float * float) (i : nat)
    : float * float * float :=
  let '(dot, normA, normB) := acc in
  (dot + num_at a i * num_at b i,
   normA + num_at a i * num_at a i,
   normB + num_at b i * num_at b i)%float.

(** The three accumulators after the loop: [(dot, normA, normB)]. *)
Definition cosine_sums (a b : list float) : float * float * float :=
  foldl (cosine_step a b) (0, 0, 0)%float (seq 0 (length a)).

Definition cosineDistance (a b : list float) : float :=
  let '(dot, normA, normB) := cosine_sums a b in
  let denom := (sqrt normA * sqrt normB)%float in
  if (denom =? 0)%float then 1%float else (1 - dot / denom)%float.

Abbreviation matrix := (list (list float)).

(** [m[i][j]] read as a number. *)
Definition mat_get (m : matrix) (i j : nat) : float := num_at (default [] (m !! i)) j.

(** [m[i][j] = d]; the loops below only write inside the [n × n] bounds. *)
Definition mat_set (m : matrix) (i j : nat) (d : float) : matrix := alter (<[j:=d]>) i m.

(** Body of the inner loop of [buildDistanceMatrix]. *)
Definition distance_cell (embeddings : list (list float)) (i : nat) (m : matrix) (j : nat)
    : matrix :=
  let d := cosineDistance (default [] (embeddings !! i)) (default [] (embeddings !! j)) in
  mat_set (mat_set m i j d) j i d.

Definition buildDistanceMatrix (embeddings : list (list float)) : matrix :=
  let n := length embeddings in
  foldl (λ m i, foldl (distance_cell embeddings i) m (seq (i + 1) (n - (i + 1))))
        (replicate n (replicate n 0%float)) (seq 0 n).

(** [dist[current]]; indexing the result throws when it is [undefined]. *)
Definition row_of (dist : matrix) (current : Z) : outcome (list float) :=
  match index_Z dist current with
  | Some row => Returns row
  | None => Throws TypeError
  end.

(** Body of the inner [for] loop of [seriate]; [best] is [(bestIdx, bestDist)].
    [dist[current][j]] is only evaluated for an unvisited [j]. *)
Definition scan_step (dist : matrix) (visited : gset Z) (current : Z)
    (best : Z * float) (j : nat) : outcome (Z * float) :=
  if decide (Z.of_nat j ∈ visited) then Returns best
  else
    row ← row_of dist current;
    if (num_at row j <? best.2)%float then Returns (Z.of_nat j, num_at row j)
    else Returns best.

Definition scan (dist : matrix) (n : nat) (visited : gset Z) (current : Z)
    : outcome (Z * float) :=
  foldM (scan_step dist visited current) ((-1)%Z, infinity) (seq 0 n).

(** The [while (order.length < n)] loop. Every iteration pushes one index, so
    it runs exactly [remaining = n - order.length] times. *)
Fixpoint seriate_loop (dist : matrix) (n remaining : nat) (visited : gset Z)
    (order : list Z) (current : Z) : outcome (list Z) :=
  match remaining with
  | O => Returns order
  | S r =>
    best ← scan dist n visited current;
    seriate_loop dist n r ({[best.1]} ∪ visited) (order ++ [best.1]) best.1
  end.

Definition seriate (embeddings : list (list float)) : outcome (list Z) :=
  let n := length embeddings in
  if decide (n ≤ 1) then Returns (if decide (n = 1) then [0%Z] else [])
  else seriate_loop (buildDistanceMatrix embeddings) n (n - 1) {[0%Z]} [0%Z] 0%Z.

(** [seriate] called on an array that may hold [undefined] in place of a
    vector (the caller does not check what it collected). [a.length] throws
    when [a] is [undefined]; [b[i]] is read only inside the loop over [a], so
    an [undefined] [b] throws unless [a] is empty. *)
Definition cosineDistance_dyn (a b : option (list float)) : outcome float :=
  match a with
  | None => Throws TypeError
  | Some va =>
    match b with
    | Some vb => Returns (cosineDistance va vb)
    | None =>
      match va with
      | [] => Returns (cosineDistance [] [])
      | _ :: _ => Throws TypeError
      end
    end
  end.

Definition distance_cell_dyn (embeddings : list (option (list float))) (i : nat)
    (m : matrix) (j : nat) : outcome matrix :=
  d ← cosineDistance_dyn (mjoin (embeddings !! i)) (mjoin (embeddings !! j));
  Returns (mat_set (mat_set m i j d) j i d).

Definition buildDistanceMatrix_dyn (embeddings : list (option (list float)))
    : outcome matrix :=
  let n := length embeddings in
  foldM (λ m i, foldM (distance_cell_dyn embeddings i) m (seq (i + 1) (n - (i + 1))))
        (replicate n (replicate n 0%float)) (seq 0 n).

Definition seriate_dyn (embeddings : list (option (list float))) : outcome (list Z) :=
  let n := length embeddings in
  if decide (n ≤ 1) then Returns (if decide (n = 1) then [0%Z] else [])
  else
    dist ← buildDistanceMatrix_dyn embeddings;
    seriate_loop dist n (n - 1) {[0%Z]} [0%Z] 0%Z.

End Seriation.
Import Seriation.

(** ** The OpenAI embeddings client *)

Module Embeddings.

Definition EMBEDDING_BATCH_SIZE : nat := 100.

(** One element of [data.data] in a response body. *)
Record item : Type := Item { index : nat; embedding : list float }.

(** What [fetch] resolves to: [response.ok] false with a status and a body,
    or a parsed JSON body. *)
Inductive response : Type :=
| HttpError (status : nat) (body : string)
| HttpOk (data : list item).

(** The remote service: its answer to the [k]-th request of a run, given the
    request's [input]. *)
Definition provider : Type := nat → list string → response.

(** [texts.slice(i, j)] for [0 ≤ i]. *)
Definition slice {A : Type} (l : list A) (i j : nat) : list A := take (j - i) (drop i l).

(** [data.data.sort((a, b) => a.index - b.index)]: a stable sort by [index]
    (the language guarantees stability), written as insertion sort. *)
Fixpoint insert_by_index (x : item) (l : list item) : list item :=
  match l with
  | [] => [x]
  | y :: l' => if decide (index x ≤ index y) then x :: l else y :: insert_by_index x l'
  end.

Definition sort_by_index (l : list item) : list item := foldr insert_by_index [] l.

(** The values the loop variable [i] takes: [0, 100, 200, ...] below
    [texts.length]. *)
Definition batch_starts (len : nat) : list nat :=
  (λ k, k * EMBEDDING_BATCH_SIZE)
    <$> seq 0 ((len + (EMBEDDING_BATCH_SIZE - 1)) / EMBEDDING_BATCH_SIZE).

(** The [for] loop of [fetchEmbeddings], threading [allEmbeddings] and the
    log of the requests issued so far. *)
Fixpoint fetch_loop (api : provider) (texts : list string) (starts : list nat)
    (calls : list (list string)) (allEmbeddings : list (list float))
    : outcome (list (list float)) * list (list string) :=
  match starts with
  | [] => (Returns allEmbeddings, calls)
  | i :: rest =>
    let batch := slice texts i (i + EMBEDDING_BATCH_SIZE) in
    match api (length calls) batch with
    | HttpError status body => (Throws (ApiError status body), calls ++ [batch])
    | HttpOk data =>
      fetch_loop api texts rest (calls ++ [batch])
        (allEmbeddings ++ (embedding <$> sort_by_index data))
    end
  end.

(** The groups the loop cuts [texts] into, in the order it sends them. *)
Definition batches (texts : list string) : list (list string) :=
  (λ i, slice texts i (i + EMBEDDING_BATCH_SIZE)) <$> batch_starts (length texts).

(** Returns the embeddings (or the error thrown) and the requests issued. *)
Definition fetchEmbeddings (api : provider) (texts : list string)
    : outcome (list (list float)) * list (list string) :=
  fetch_loop api texts (batch_starts (length texts)) [] [].

End Embeddings.
Import Embeddings.

(** ** lib/db.js *)

Module Db.

(** The object store [embeddings], keyed by [messageId]. A record's
    [embedding] field is whatever was put there, possibly [undefined]. *)
Abbreviation store := (gmap string (option (list float))).

(** [getEmbedding]: [request.result?.embedding ?? null]. *)
Definition getEmbedding (db : store) (messageId : string) : option (list float) :=
  mjoin (db !! messageId).

(** [getEmbeddings]: the records whose key is one of [messageIds], as a [Map]. *)
Definition getEmbeddings (db : store) (messageIds : list string) : store :=
  filter (λ kv, kv.1 ∈ messageIds) db.

(** [storeEmbeddings]: one [store.put(entry)] per entry, in order. *)
Definition storeEmbeddings (db : store) (entries : list (string * option (list float)))
    : store :=
  foldl (λ d entry, <[entry.1 := entry.2]> d) db entries.

End Db.
Import Db.

(** ** The background script *)

Module Background.

(** A message of the folder: its Message-ID header value, and the text that
    [extractMessageText] builds from it and its body. *)
Record message : Type := Message { headerMessageId : string; text : string }.

(** What the mail client shows when the run starts. *)
Inductive mail_state : Type :=
| NoMailTabs
| NoDisplayedFolder
| Folder (messages : list message).

Record world : Type := World {
  apiKey : option string;
  mail : mail_state;
  db : store;
  api : provider;
}.

(** How a run ends: the rank map handed to [setRanks], or the error caught by
    the [catch] block. *)
Inductive status : Type :=
| Done (ranks : gmap string Z)
| Failed (e : error).

Record result : Type := Result {
  final : status;
  db_after : store;
  requests : list (list string);
}.

(** The loop that converts [order] to ranks, from [position] on. *)
Fixpoint rank_loop (messageIds : list string) (order : list Z) (position : Z)
    (ranks : gmap string Z) : gmap string Z :=
  match order with
  | [] => ranks
  | originalIndex :: rest =>
    let messageId := prop_key (index_Z messageIds originalIndex) in
    rank_loop messageIds rest (position + 1) (obj_set ranks messageId (position + 1))
  end.

Definition toRanks (messageIds : list string) (order : list Z) : gmap string Z :=
  rank_loop messageIds order 0 ∅.

(** [needEmbedding]: the messages whose id is not a key of [cachedEmbeddings]. *)
Definition needEmbedding (cached : store) (messages : list message) : list message :=
  filter (λ m, cached !! headerMessageId m = None) messages.

(** [entries]: each message in need paired with [newEmbeddings[i]]. *)
Definition new_entries (need : list message) (newEmbeddings : list (list float))
    : list (string * option (list float)) :=
  imap (λ i msg, (headerMessageId msg, newEmbeddings !! i)) need.

(** [embeddingArray]: [cachedEmbeddings.get(id)] for each id, in message order. *)
Definition embeddingArray (cached : store) (messageIds : list string)
    : list (option (list float)) :=
  (λ id, mjoin (cached !! id)) <$> messageIds.

(** Checking the cache and computing the missing embeddings. Returns the
    updated [cachedEmbeddings] map (or the error thrown), the object store as
    the run leaves it, and the requests sent. [storeEmbeddings] is started
    only after [fetchEmbeddings] has returned, and is not awaited; its writes
    are taken to complete. *)
Definition collectEmbeddings (messages : list message) (w : world)
    : outcome store * store * list (list string) :=
  let messageIds := headerMessageId <$> messages in
  let cachedEmbeddings := getEmbeddings (db w) messageIds in
  let need := needEmbedding cachedEmbeddings messages in
  if decide (0 < length need) then
    let texts := text <$> need in
    match fetchEmbeddings (api w) texts with
    | (Throws e, calls) => (Throws e, db w, calls)
    | (Returns newEmbeddings, calls) =>
      let entries := new_entries need newEmbeddings in
      (Returns (storeEmbeddings cachedEmbeddings entries),
       storeEmbeddings (db w) entries, calls)
    end
  else (Returns cachedEmbeddings, db w, []).

(** Seriation and the conversion of the order to ranks. *)
Definition rankMessages (messageIds : list string) (cached : store)
    : outcome (gmap string Z) :=
  order ← seriate_dyn (embeddingArray cached messageIds);
  Returns (toRanks messageIds order).

(** The run from the point where the folder's messages are known. *)
Definition seriate_messages (messages : list message) (w : world) : result :=
  match collectEmbeddings messages w with
  | (Throws e, db', calls) => Result (Failed e) db' calls
  | (Returns cached, db', calls) =>
    match rankMessages (headerMessageId <$> messages) cached with
    | Throws e => Result (Failed e) db' calls
    | Returns ranks => Result (Done ranks) db' calls
    end
  end.

(** [handleSeriate]. What it reads from its environment is the [world]; the
    progress messages it sends to the popup are left out. *)
Definition handleSeriate (w : world) : result :=
  let fail (msg : string) := Result (Failed (PlainError msg)) (db w) [] in
  match apiKey w with
  | None => fail "OpenAI API key not configured. Set it in the popup."
  | Some key =>
    if decide (key = "") then fail "OpenAI API key not configured. Set it in the popup."
    else
      match mail w with
      | NoMailTabs => fail "No mail tabs found."
      | NoDisplayedFolder => fail "No folder selected in mail tab."
      | Folder messages =>
        if decide (length messages = 0) then fail "No messages in the current folder."
        else seriate_messages messages w
      end
  end.

(** The messages of a run that have no cached embedding. *)
Definition missing (messages : list message) (w : world) : list message :=
  needEmbedding (getEmbeddings (db w) (headerMessageId <$> messages)) messages.

(** The groups of texts a run sends to the provider. *)
Definition request_groups (messages : list message) (w : world) : list (list string) :=
  batches (text <$> missing messages w).

End Background.
Import Background.

(** ** Properties stated about the code *)

Module Spec.

(** Every pair of distinct inputs has a distance that compares below
    [Infinity] (it is neither NaN nor [+Infinity]). *)
Definition comparable_distances (embeddings : list (list float)) : bool :=
  let n := length embeddings in
  forallb (λ i,
    forallb (λ j,
      (cosineDistance (default [] (embeddings !! i)) (default [] (embeddings !! j))
         <? infinity)%float)
      (seq (i + 1) (n - (i + 1))))
    (seq 0 n).

(** An [n × n] array of arrays. *)
Definition square (n : nat) (m : matrix) : Prop :=
  length m = n ∧ ∀ row, row ∈ m → length row = n.

(** The value [buildDistanceMatrix] stores for the pair [(i, j)]. *)
Definition cell (embeddings : list (list float)) (i j : nat) : float :=
  cosineDistance (default [] (embeddings !! i)) (default [] (embeddings !! j)).

(** The sum of squares of a vector, as the loop of [cosineDistance] adds it up. *)
Definition sum_squares (a : list float) : float := (cosine_sums a a).2.

(** State of the scan over a row after the indices below [k]: nothing found
    yet, or the first index that attains the least distance seen. *)
Definition scan_inv (visited : gset Z) (row : list float) (k : nat) (best : Z * float) : Prop :=
  (best = ((-1)%Z, infinity) ∧
   ∀ j, j < k → Z.of_nat j ∉ visited → (num_at row j <? infinity)%float = false)
  ∨ (∃ b, best = (Z.of_nat b, num_at row b) ∧ b < k ∧ (Z.of_nat b ∉ visited) ∧
       (num_at row b <? infinity)%float = true ∧
       ∀ j, j < k → Z.of_nat j ∉ visited →
         (num_at row j <? num_at row b)%float = false ∧
         (j < b → (num_at row j <? infinity)%float = true →
          (num_at row b <? num_at row j)%float = true)).

(** Every element of [order] is an index below [n]. *)
Definition in_range (n : nat) (order : list Z) : Prop :=
  ∀ x, x ∈ order → (0 ≤ x < Z.of_nat n)%Z.

(** [b] is an unvisited index; no unvisited index is nearer to the last
    element of [visited], and every smaller unvisited index is strictly
    farther from it. *)
Definition nearest_unvisited (dist : matrix) (n : nat) (visited : list Z) (b : Z) : Prop :=
  ∃ c bn, last visited = Some (Z.of_nat c) ∧ b = Z.of_nat bn ∧ bn < n ∧ (b ∉ visited) ∧
    ∀ j, j < n → Z.of_nat j ∉ visited →
      (mat_get dist c j <? mat_get dist c bn)%float = false ∧
      (j < bn → (mat_get dist c bn <? mat_get dist c j)%float = true).

(** [order] starts at index [0] and every later element is the nearest
    unvisited index at its step. *)
Definition greedy_order (dist : matrix) (n : nat) (order : list Z) : Prop :=
  head order = Some 0%Z ∧
  ∀ k b, 0 < k → order !! k = Some b → nearest_unvisited dist n (take k order) b.


(** The well-formed answer to a request: one item per input text, numbered
    from [k], in input order, where [E] gives the embedding of a text. *)
Definition indexed (E : string → list float) (k : nat) (batch : list string) : list item :=
  imap (λ i t, Item (k + i) (E t)) batch.

(** The property names the rank loop writes, in order. *)
Definition rank_keys (messageIds : list string) (order : list Z) : list string :=
  (λ originalIndex, prop_key (index_Z messageIds originalIndex)) <$> order.

(** The last position at which [id] occurs in [keys]. *)
Fixpoint last_pos (id : string) (keys : list string) : option nat :=
  match keys with
  | [] => None
  | k :: ks =>
    match last_pos id ks with
    | Some p => Some (S p)
    | None => if decide (k = id) then Some 0 else None
    end
  end.

(** The rank map holds exactly the ids, and its values are [1..n], each
    taken once. *)
Definition contiguous_ranks (messageIds : list string) (ranks : gmap string Z) : Prop :=
  dom ranks = list_to_set messageIds ∧
  (∀ id r, ranks !! id = Some r → (1 ≤ r ≤ Z.of_nat (length messageIds))%Z) ∧
  (∀ r, (1 ≤ r ≤ Z.of_nat (length messageIds))%Z → ∃ id, ranks !! id = Some r) ∧
  (∀ id1 id2 r, ranks !! id1 = Some r → ranks !! id2 = Some r → id1 = id2).

(** Progressive persistence as the specification words it: in a run whose
    request [k] is the first to fail, the embeddings of the messages sent in
    the earlier requests can be read back from the store afterwards. *)
Definition persisted_before_failure (messages : list message) (w : world) : Prop :=
  ∀ k status body,
    k < length (request_groups messages w) →
    (∀ j, j < k → ∃ data, api w j (request_groups messages w !!! j) = HttpOk data) →
    api w k (request_groups messages w !!! k) = HttpError status body →
    ∀ p msg, p < k * EMBEDDING_BATCH_SIZE → missing messages w !! p = Some msg →
      is_Some (getEmbedding (db_after (handleSeriate w)) (headerMessageId msg)).

End Spec.
Import Spec.

(** ** Concrete inputs *)

Module Examples.

(** The vectors of the specification's scenario. *)
Definition scenario : list (list float) := [[1; 0]; [1; 0.001]; [0; 1]]%float.

(** Vectors whose squared norm exceeds the largest binary64 value. *)
Definition overflow2 : list (list float) := [[1e200]; [1e200]]%float.
Definition overflow3 : list (list float) := [[1e200]; [1e200]; [1e200]]%float.

(** The vector [1, 2] divided by its norm. *)
Definition unit_12 : list float := [0.44721359549995793; 0.89442719099991586]%float.

Definition unit_embedding (t : string) : list float :=
  if decide (t = "a") then [1; 0]%float
  else if decide (t = "b") then [1; 0.001]%float
  else [0; 1]%float.

(** A provider that answers every request completely, last item first. *)
Definition reversing_api : provider :=
  λ k batch, HttpOk (reverse (indexed unit_embedding 0 batch)).

(** A provider that answers the first request and refuses the rest. *)
Definition flaky_api : provider :=
  λ k batch, if decide (k = 0) then reversing_api k batch else HttpError 429 "rate limit".

(** 101 messages, ids m0 .. m100: two requests. *)
Definition many_messages : list message :=
  (λ i, Message ("m" +:+ pretty i) "a") <$> seq 0 101.

Definition flaky_world : world := World (Some "sk") (Folder many_messages) ∅ flaky_api.

Definition three_messages : list message :=
  [Message "A" "a"; Message "B" "b"; Message "C" "c"].

(** Ids A and B are cached, C is not. *)
Definition cached_world : world :=
  World (Some "sk") (Folder three_messages)
        (<["A" := Some [1; 0]%float]> (<["B" := Some [1; 0.001]%float]> ∅)) reversing_api.

Definition duplicate_messages : list message :=
  [Message "A" "a"; Message "A" "b"; Message "C" "c"].

Definition duplicate_world : world :=
  World (Some "sk") (Folder duplicate_messages) ∅ reversing_api.

Definition proto_messages : list message :=
  [Message "__proto__" "a"; Message "__proto__" "b"].

Definition proto_world : world := World (Some "sk") (Folder proto_messages) ∅ reversing_api.

(** Distinct ids, one of them ["__proto__"]. *)
Definition reserved_world : world :=
  World (Some "sk") (Folder [Message "__proto__" "a"; Message "B" "b"]) ∅ reversing_api.

(** Two cached embeddings whose squared norm overflows. *)
Definition overflow_world : world :=
  World (Some "sk") (Folder [Message "A" "a"; Message "B" "b"])
        (<["A" := Some [1e200]%float]> (<["B" := Some [1e200]%float]> ∅)) reversing_api.

End Examples.
Import Examples.

(** ** The custom column (api/seriateColumn/implementation.js) *)

Module Column.

(** [Number.MAX_SAFE_INTEGER], [2^53 - 1]. *)
Definition MAX_SAFE_INTEGER : Z := 9007199254740991.

(** [setRanks]: [this.ranks] is cleared, then every own property of the
    object received is set in it. The entries of [ranks] have distinct
    keys, so the order in which [Object.entries] lists them does not show in
    the resulting map. *)
Definition setRanks (ranks : gmap string Z) (current : gmap string Z) : gmap string Z :=
  foldl (λ m entry, <[entry.1 := entry.2]> m) ∅ (map_to_list ranks).

Definition clearRanks (current : gmap string Z) : gmap string Z := ∅.

(** [sortCallback]: the rank of the message, or [MAX_SAFE_INTEGER] when
    [this.ranks.get] gives [undefined]. *)
Definition sortCallback (current : gmap string Z) (messageId : string) : Z :=
  default MAX_SAFE_INTEGER (current !! messageId).

End Column.
Import Column.

(** ** Text extraction (the embeddings client) *)

Module Extract.

(** A JavaScript string is a sequence of UTF-16 code units; [slice], the
    regular expressions (which carry no [u] flag) and [trim] all work on
    code units. *)
Abbreviation jsstring := (list N).

(** A literal of the source, which holds ASCII characters only. *)
Definition lit (s : string) : jsstring := Ascii.N_of_ascii <$> String.list_ascii_of_string s.

Definition LT_SIGN : N := 60.
Definition GT_SIGN : N := 62.
Definition SPACE : N := 32.
Definition NEWLINE : N := 10.

(** A value used as a condition: [undefined] and the empty string are falsy. *)
Definition truthy (s : option jsstring) : bool :=
  match s with
  | Some (_ :: _) => true
  | _ => false
  end.

(** The string behind a value that passed (or failed) the [truthy] test. *)
Definition str (s : option jsstring) : jsstring := default [] s.

(** The code units the class [\s] matches, which are also those [trim]
    removes: white space and line terminators. *)
Definition is_space (c : N) : bool :=
  ((9 <=? c) && (c <=? 13) || (c =? 32) || (c =? 0xA0) || (c =? 0x1680)
   || (0x2000 <=? c) && (c <=? 0x200A) || (c =? 0x2028) || (c =? 0x2029)
   || (c =? 0x202F) || (c =? 0x205F) || (c =? 0x3000) || (c =? 0xFEFF))%N.

(** After [<] and a first character of [[^>]+]: the greedy class runs up
    to the first [>], which closes the match; this gives the text after it. *)
Fixpoint tag_rest (s : jsstring) : option jsstring :=
  match s with
  | [] => None
  | c :: s' => if (c =? GT_SIGN)%N then Some s' else tag_rest s'
  end.

(** A match of [/<[^>]+>/] at the start of [s]: the text that follows it. *)
Definition match_tag (s : jsstring) : option jsstring :=
  match s with
  | c :: d :: s' => if ((c =? LT_SIGN) && negb (d =? GT_SIGN))%N then tag_rest s' else None
  | _ => None
  end.

(** [s.replace(/<[^>]+>/g, " ")]: at each position, a match is replaced and
    the scan goes on after it; otherwise the code unit is copied. Each step
    consumes at least one code unit, so [length s] steps are enough. *)
Fixpoint replace_tags (steps : nat) (s : jsstring) : jsstring :=
  match steps with
  | O => s
  | S steps' =>
    match s with
    | [] => []
    | c :: s' =>
      match match_tag s with
      | Some rest => SPACE :: replace_tags steps' rest
      | None => c :: replace_tags steps' s'
      end
    end
  end.

Definition strip_tags (s : jsstring) : jsstring := replace_tags (length s) s.

(** [s.replace(/\s+/g, " ")]; [in_run] tells that the previous code unit was
    part of the run being replaced. *)
Fixpoint collapse_spaces (in_run : bool) (s : jsstring) : jsstring :=
  match s with
  | [] => []
  | c :: s' =>
    if is_space c then
      if in_run then collapse_spaces true s' else SPACE :: collapse_spaces true s'
    else c :: collapse_spaces false s'
  end.

Fixpoint trim_start (s : jsstring) : jsstring :=
  match s with
  | [] => []
  | c :: s' => if is_space c then trim_start s' else s
  end.

Definition trim (s : jsstring) : jsstring := reverse (trim_start (reverse (trim_start s))).

(** [body.replace(/<[^>]+>/g, " ").replace(/\s+/g, " ").trim()]. *)
Definition html_to_text (body : jsstring) : jsstring :=
  trim (collapse_spaces false (strip_tags body)).

(** A [MessagePart] as far as the code reads it. *)
#[local] Unset Elimination Schemes.
Inductive part : Type :=
| Part (contentType : option string) (body : option jsstring) (parts : option (list part)).
#[local] Set Elimination Schemes.

Fixpoint extractBodyText (p : part) : jsstring :=
  match p with
  | Part contentType body parts =>
    if bool_decide (contentType = Some "text/plain") && truthy body then str body
    else if bool_decide (contentType = Some "text/html") && truthy body then
      html_to_text (str body)
    else
      match parts with
      | Some children =>
        (fix first_text (children : list part) : jsstring :=
           match children with
           | [] => []
           | child :: rest =>
             let text := extractBodyText child in
             if truthy (Some text) then text else first_text rest
           end) children
      | None => []
      end
  end.

(** A [MessageHeader] as far as the code reads it. *)
Record header : Type := Header { subject : option jsstring; author : option jsstring }.

(** [parts.join("\n")]. *)
Definition join_lines (parts : list jsstring) : jsstring :=
  match parts with
  | [] => []
  | p :: ps => p ++ concat ((λ q, NEWLINE :: q) <$> ps)
  end.

Definition extractMessageText (message : header) (fullMessage : part) : jsstring :=
  let parts := [] in
  let parts :=
    if truthy (subject message) then parts ++ [lit "Subject: " ++ str (subject message)]
    else parts in
  let parts :=
    if truthy (author message) then parts ++ [lit "From: " ++ str (author message)]
    else parts in
  let bodyText := extractBodyText fullMessage in
  let parts :=
    if truthy (Some bodyText) then parts ++ [take (N.to_nat 8000) bodyText]
    else parts in
  join_lines parts.

End Extract.
Import Extract.

(** ** The viewer (viewer/viewer.js) *)

Module Viewer.

(** [messagesWithEmbeddings] in [init]: the messages of the folder whose id
    is a key of the map that [getEmbeddings] returns for the folder's ids. *)
Definition messagesWithEmbeddings (db : store) (messages : list message) : list message :=
  let embeddingsMap := getEmbeddings db (headerMessageId <$> messages) in
  filter (λ m, is_Some (embeddingsMap !! headerMessageId m)) messages.

End Viewer.
Import Viewer.

(** ** [seriate] as a transition system *)

Module Machine.

(** Where control stands in the body of [seriate], with the loop variables
    that are live there. *)
Inductive point : Type :=
| While_test                                          (* at [order.length < n] *)
| For_test (j : nat) (bestIdx : Z) (bestDist : float) (* at [j < n] *)
| Halted (result : outcome (list Z)).                 (* returned, or threw *)

(** The variables [visited], [order] and [current], and the control point. *)
Record config : Type := Config {
  cfg_visited : gset Z;
  cfg_order : list Z;
  cfg_current : Z;
  cfg_point : point;
}.

(** One step of the loops of [seriate] over the matrix [dist] of [n] rows:
    the tests of [while] and [for], the two conjuncts of the [if] (the
    second is evaluated only for an unvisited [j], and throws when
    [dist[current]] is [undefined]), and the three statements that close an
    iteration of [while]. *)
Inductive step (dist : matrix) (n : nat) : config → config → Prop :=
| step_return visited order current :
    ¬ length order < n →
    step dist n (Config visited order current While_test)
                (Config visited order current (Halted (Returns order)))
| step_enter visited order current :
    length order < n →
    step dist n (Config visited order current While_test)
                (Config visited order current (For_test 0 (-1) infinity))
| step_visited visited order current j bestIdx bestDist :
    j < n → Z.of_nat j ∈ visited →
    step dist n (Config visited order current (For_test j bestIdx bestDist))
                (Config visited order current (For_test (S j) bestIdx bestDist))
| step_throw visited order current j bestIdx bestDist :
    j < n → Z.of_nat j ∉ visited → index_Z dist current = None →
    step dist n (Config visited order current (For_test j bestIdx bestDist))
                (Config visited order current (Halted (Throws TypeError)))
| step_nearer visited order current j bestIdx bestDist row :
    j < n → Z.of_nat j ∉ visited → index_Z dist current = Some row →
    (num_at row j <? bestDist)%float = true →
    step dist n (Config visited order current (For_test j bestIdx bestDist))
                (Config visited order current (For_test (S j) (Z.of_nat j) (num_at row j)))
| step_not_nearer visited order current j bestIdx bestDist row :
    j < n → Z.of_nat j ∉ visited → index_Z dist current = Some row →
    (num_at row j <? bestDist)%float = false →
    step dist n (Config visited order current (For_test j bestIdx bestDist))
                (Config visited order current (For_test (S j) bestIdx bestDist))
| step_push visited order current j bestIdx bestDist :
    ¬ j < n →
    step dist n (Config visited order current (For_test j bestIdx bestDist))
                (Config ({[bestIdx]} ∪ visited) (order ++ [bestIdx]) bestIdx While_test).

(** The configuration after the statements before the [while] loop. *)
Definition start (embeddings : list (list float)) : config :=
  let n := length embeddings in
  if decide (n ≤ 1) then Config ∅ [] 0 (Halted (Returns (if decide (n = 1) then [0%Z] else [])))
  else Config {[0%Z]} [0%Z] 0 While_test.

(** A run of [seriate(embeddings)] that ends with [result]. *)
Definition run (embeddings : list (list float)) (result : outcome (list Z)) : Prop :=
  ∃ c, rtc (step (buildDistanceMatrix embeddings) (length embeddings)) (start embeddings) c ∧
       cfg_point c = Halted result.

End Machine.

(** ** Further notions used in the statements *)

Module Notions.

(** The embeddings [fetchEmbeddings] takes from one answer. *)
Definition answer_embeddings (r : response) : list (list float) :=
  match r with
  | HttpOk data => embedding <$> sort_by_index data
  | HttpError _ _ => []
  end.

(** The accumulators of [cosineDistance] with the two norms exchanged. *)
Definition swap_norms (acc : float * float * float) : float * float * float :=
  (acc.1.1, acc.2, acc.1.2).

(** The sum of squares of a vector, added up from the left in binary64. *)
Definition sum_of_squares (a : list float) : float :=
  foldl (λ s x, s + x * x)%float 0%float a.

(** What a later reader finds in the store once the write that the run
    started without awaiting it ([storeEmbeddings(entries).catch(...)]) has
    completed. When that write fails, or before it is done, the store is
    still [db w]: [db_after] describes the run whose write completes. *)
Definition write_completed (w : world) (store_now : store) : Prop :=
  store_now = db_after (handleSeriate w).

(** A vector whose entries are all [+0] or [-0]. *)
Definition zero_vector (a : list float) : Prop :=
  Forall (λ x, x = 0%float ∨ x = (-0)%float) a.

(** Every white-space code unit of [s] is a space, and is not followed by
    another white-space code unit. *)
Definition single_spaced (s : jsstring) : Prop :=
  ∀ i c, s !! i = Some c → is_space c = true →
    c = SPACE ∧ ∀ d, s !! S i = Some d → is_space d = false.

(** [s] neither starts nor ends with white space. *)
Definition trimmed (s : jsstring) : Prop :=
  (∀ c, head s = Some c → is_space c = false) ∧
  (∀ c, last s = Some c → is_space c = false).

(** Every [<] of [s] is directly followed by [>], or has no [>] after it. *)
Fixpoint no_tag (s : jsstring) : Prop :=
  match s with
  | [] => True
  | c :: s' => (c = LT_SIGN → head s' = Some GT_SIGN ∨ GT_SIGN ∉ s') ∧ no_tag s'
  end.

(** The texts a part tree offers, in document order: a part with a
    non-empty body of type text/plain or text/html offers that text and
    hides its children; any other part offers what its children offer. *)
Fixpoint candidate_texts (p : part) : list jsstring :=
  match p with
  | Part contentType body parts =>
    if bool_decide (contentType = Some "text/plain") && truthy body then [str body]
    else if bool_decide (contentType = Some "text/html") && truthy body then
      [html_to_text (str body)]
    else
      match parts with
      | Some children =>
        (fix offered (children : list part) : list jsstring :=
           match children with
           | [] => []
           | child :: rest => candidate_texts child ++ offered rest
           end) children
      | None => []
      end
  end.

End Notions.
Import Notions.

(** ** Further concrete inputs *)

Module Cases.

(** A folder of two messages whose records exist; the record of B holds no
    embedding. *)
Definition undefined_world : world :=
  World (Some "sk") (Folder [Message "A" "a"; Message "B" "b"])
        (<["A" := Some [1; 0]%float]> (<["B" := None]> ∅)) reversing_api.

(** The folder of [cached_world] over the store its run leaves once its
    write has completed, with a provider that refuses every request. *)
Definition rerun_world : world :=
  World (Some "sk") (Folder three_messages) (db_after (handleSeriate cached_world))
        (λ _ _, HttpError 503 "unavailable").

(** An HTML body. *)
Definition html_body : jsstring := lit "<p>Hello   <b>world</b></p>  ".

(** A message whose HTML part strips to nothing, followed by a plain-text
    part. *)
Definition alternative_message : part :=
  Part (Some "multipart/alternative") None
       (Some [Part (Some "text/html") (Some (lit "<br>")) None;
              Part (Some "text/plain") (Some (lit "plain body")) None]).

End Cases.
Import Cases.

(** * Facts *)

(** ** The order of binary64 values *)

Section FloatOrder.

Ltac cmp_cases :=
  repeat match goal with
  | |- context [Z.compare ?a ?b] => destruct (Z.compare_spec a b)
  | |- context [Pos.compare ?a ?b] => destruct (Pos.compare_spec a b)
  end.

Ltac sf_cases :=
  simpl; try congruence; change (Pos.compare_cont Eq) with Pos.compare;
  cmp_cases; simpl; intros; subst; try congruence; try lia.

Lemma SFcompare_refl_not_lt x : SFcompare x x ≠ Some Lt.
Proof. destruct x as [[]|[]| |[] ? ?]; sf_cases. Qed.

Lemma SFcompare_lt_trans x y z :
  SFcompare x y = Some Lt → SFcompare y z = Some Lt → SFcompare x z = Some Lt.
Proof.
  destruct x as [[]|[]| |[] ? ?], y as [[]|[]| |[] ? ?], z as [[]|[]| |[] ? ?]; sf_cases.
Qed.

Lemma SFcompare_lt_below x y z :
  SFcompare x y = Some Lt → SFcompare z y ≠ Some Lt → z ≠ S754_nan →
  SFcompare x z = Some Lt.
Proof.
  destruct x as [[]|[]| |[] ? ?], y as [[]|[]| |[] ? ?], z as [[]|[]| |[] ? ?]; sf_cases.
Qed.

Lemma ltb_Some_Lt x y : (x <? y)%float = true ↔ SFcompare (Prim2SF x) (Prim2SF y) = Some Lt.
Proof.
  rewrite ltb_spec. unfold SFltb.
  destruct (SFcompare (Prim2SF x) (Prim2SF y)) as [[]|]; split; congruence.
Qed.

Lemma ltb_irrefl x : (x <? x)%float = false.
Proof.
  apply not_true_is_false. rewrite ltb_Some_Lt. apply SFcompare_refl_not_lt.
Qed.

Lemma ltb_trans x y z :
  (x <? y)%float = true → (y <? z)%float = true → (x <? z)%float = true.
Proof. rewrite !ltb_Some_Lt. apply SFcompare_lt_trans. Qed.

Lemma ltb_not_nan x y : (x <? y)%float = true → Prim2SF x ≠ S754_nan.
Proof. rewrite ltb_Some_Lt. intros H Hx. rewrite Hx in H. discriminate. Qed.

(** [x < y], [z] is not below [y] and [z] is not NaN: then [x < z]. *)
Lemma ltb_below x y z w :
  (x <? y)%float = true → (z <? y)%float = false → (z <? w)%float = true →
  (x <? z)%float = true.
Proof.
  intros Hxy Hzy Hzw. apply ltb_not_nan in Hzw.
  apply not_true_iff_false in Hzy. rewrite ltb_Some_Lt in *.
  eauto using SFcompare_lt_below.
Qed.

End FloatOrder.

(** ** Loops *)

Section Loops.
Context {A B : Type}.

Lemma foldM_app (f : A → B → outcome A) (a : A) (l1 l2 : list B) :
  foldM f a (l1 ++ l2) = (a' ← foldM f a l1; foldM f a' l2).
Proof.
  revert a. induction l1 as [|x l1 IH]; intros a; simpl; [done|].
  destruct (f a x) as [a'|e]; simpl; [apply IH|done].
Qed.

(** A loop whose body never throws is a plain fold. *)
Lemma foldM_returns (f : A → B → outcome A) (g : A → B → A) (P : A → Prop)
    (l : list B) (a : A) :
  (∀ a x, P a → x ∈ l → f a x = Returns (g a x) ∧ P (g a x)) →
  P a →
  foldM f a l = Returns (foldl g a l) ∧ P (foldl g a l).
Proof.
  revert a. induction l as [|x l IH]; intros a Hf Ha; simpl; [done|].
  destruct (Hf a x Ha) as [-> HP]; [left|]. simpl.
  apply IH; [|done]. intros a' y Ha' Hy. apply Hf; [done|by right].
Qed.

End Loops.

(** ** The distance matrix *)

Section Matrix.

Lemma square_replicate n : square n (replicate n (replicate n 0%float)).
Proof.
  split; [by rewrite length_replicate|].
  intros row [-> _]%elem_of_replicate. by rewrite length_replicate.
Qed.

Lemma square_mat_set n m i j d : square n m → square n (mat_set m i j d).
Proof.
  intros [Hlen Hrows]. split; [unfold mat_set; by rewrite length_alter|].
  intros row (k & Hk)%list_elem_of_lookup. unfold mat_set in Hk.
  destruct (decide (i = k)) as [->|Hne].
  - rewrite list_lookup_alter_eq in Hk.
    destruct (m !! k) as [r|] eqn:Hr; simplify_eq/=.
    rewrite length_insert. apply Hrows. by eapply list_elem_of_lookup_2.
  - rewrite list_lookup_alter_ne in Hk by done.
    apply Hrows. by eapply list_elem_of_lookup_2.
Qed.

Lemma mat_get_set n m i j d a b :
  square n m → i < n → j < n →
  mat_get (mat_set m i j d) a b = if decide (a = i ∧ b = j) then d else mat_get m a b.
Proof.
  intros [Hlen Hrows] Hi Hj. unfold mat_get, mat_set.
  destruct (decide (i = a)) as [->|Hne].
  - rewrite list_lookup_alter_eq.
    destruct (lookup_lt_is_Some_2 m a) as [row Hrow]; [lia|]. rewrite Hrow. simpl.
    assert (length row = n) by (apply Hrows; by eapply list_elem_of_lookup_2).
    unfold num_at. destruct (decide (j = b)) as [->|Hjb].
    + rewrite list_lookup_insert_eq by lia. by rewrite decide_True.
    + rewrite list_lookup_insert_ne by done. rewrite decide_False; [done|naive_solver].
  - rewrite list_lookup_alter_ne by done. rewrite decide_False; [done|naive_solver].
Qed.

Lemma inner_loop_spec embeddings n i js m :
  i < n → (∀ j, j ∈ js → j < n) → square n m →
  square n (foldl (distance_cell embeddings i) m js) ∧
  ∀ a b, mat_get (foldl (distance_cell embeddings i) m js) a b =
    if decide (a = i ∧ b ∈ js) then cell embeddings i b
    else if decide (b = i ∧ a ∈ js) then cell embeddings i a
    else mat_get m a b.
Proof.
  intros Hi. revert m. induction js as [|j js IH]; intros m Hjs Hm; cbn [foldl].
  { split; [done|]. intros a b. rewrite !decide_False; [done|set_solver..]. }
  assert (j < n) as Hj by (apply Hjs; left).
  assert (square n (distance_cell embeddings i m j)) as Hm1
    by (unfold distance_cell; eauto using square_mat_set).
  destruct (IH (distance_cell embeddings i m j)) as [Hsq Hget]; [set_solver|done|].
  split; [done|]. intros a b. rewrite Hget. unfold distance_cell.
  rewrite (mat_get_set n), (mat_get_set n) by eauto using square_mat_set.
  fold (cell embeddings i j).
  repeat case_decide; destruct_and?; simplify_eq; try done;
    exfalso; set_solver.
Qed.

Lemma outer_loop_spec embeddings n rows m :
  (∀ i, i ∈ rows → i < n) → square n m →
  square n (foldl (λ m i, foldl (distance_cell embeddings i) m (seq (i + 1) (n - (i + 1))))
                  m rows) ∧
  ∀ a b, b < n → a < n →
    mat_get (foldl (λ m i, foldl (distance_cell embeddings i) m (seq (i + 1) (n - (i + 1))))
                   m rows) a b =
    if decide (a ∈ rows ∧ a < b) then cell embeddings a b
    else if decide (b ∈ rows ∧ b < a) then cell embeddings b a
    else mat_get m a b.
Proof.
  revert m. induction rows as [|i rows IH]; intros m Hrows Hm; cbn [foldl].
  { split; [done|]. intros a b _ _. rewrite !decide_False; [done|set_solver..]. }
  assert (i < n) as Hi by (apply Hrows; left).
  destruct (inner_loop_spec embeddings n i (seq (i + 1) (n - (i + 1))) m) as [Hsq Hget];
    [done| |done|].
  { intros j Hj%elem_of_seq. lia. }
  destruct (IH (foldl (distance_cell embeddings i) m (seq (i + 1) (n - (i + 1)))))
    as [Hsq' Hget']; [set_solver|done|].
  split; [done|]. intros a b Hb Ha. rewrite Hget' by done. rewrite Hget.
  repeat case_decide; destruct_and?; simplify_eq; try done;
    repeat match goal with
    | H : _ ∈ seq _ _ |- _ => apply elem_of_seq in H
    | H : ¬ (_ ∧ _) |- _ => apply not_and_l in H
    | H : ¬ (_ ∈ seq _ _) |- _ => rewrite elem_of_seq in H
    end; exfalso; set_solver by lia.
Qed.

Lemma buildDistanceMatrix_square embeddings :
  square (length embeddings) (buildDistanceMatrix embeddings).
Proof.
  unfold buildDistanceMatrix.
  apply outer_loop_spec; [|apply square_replicate].
  intros i Hi%elem_of_seq. lia.
Qed.

Lemma mat_get_replicate n a b :
  a < n → b < n → mat_get (replicate n (replicate n 0%float)) a b = 0%float.
Proof.
  intros Ha Hb. unfold mat_get, num_at.
  rewrite lookup_replicate_2 by done. simpl. by rewrite lookup_replicate_2.
Qed.

(** Every entry of the matrix, in terms of [cosineDistance]. *)
Lemma buildDistanceMatrix_get embeddings a b :
  a < length embeddings → b < length embeddings →
  mat_get (buildDistanceMatrix embeddings) a b =
    if decide (a < b) then cell embeddings a b
    else if decide (b < a) then cell embeddings b a
    else 0%float.
Proof.
  intros Ha Hb. unfold buildDistanceMatrix.
  destruct (outer_loop_spec embeddings (length embeddings) (seq 0 (length embeddings))
    (replicate (length embeddings) (replicate (length embeddings) 0%float)))
    as [_ Hget]; [|apply square_replicate|].
  { intros i Hi%elem_of_seq. lia. }
  rewrite Hget by done. rewrite mat_get_replicate by done.
  repeat case_decide; try done; destruct_and?; try lia;
    exfalso;
    match goal with H : ¬ (_ ∧ _) |- _ => apply H; split; [apply elem_of_seq; lia|lia] end.
Qed.

(** Reading [m[i][j]] inside the bounds of a square array. *)
Lemma square_lookup n m i j :
  square n m → i < n → j < n → m !! i ≫= (.!! j) = Some (mat_get m i j).
Proof.
  intros [Hlen Hrows] Hi Hj. unfold mat_get, num_at.
  destruct (lookup_lt_is_Some_2 m i) as [row Hrow]; [lia|]. rewrite Hrow. simpl.
  assert (length row = n) by (apply Hrows; by eapply list_elem_of_lookup_2).
  destruct (lookup_lt_is_Some_2 row j) as [d Hd]; [lia|]. by rewrite Hd.
Qed.

End Matrix.

(** ** The nearest-neighbour scan *)

Section Scan.
Variables (dist : matrix) (visited : gset Z) (current : Z) (row : list float).
Hypothesis Hrow : row_of dist current = Returns row.

Lemma scan_step_inv k best :
  scan_inv visited row k best →
  ∃ best', scan_step dist visited current best k = Returns best' ∧ scan_inv visited row (S k) best'.
Proof.
  intros Hinv. unfold scan_step.
  destruct (decide (Z.of_nat k ∈ visited)) as [Hk|Hk].
  { exists best. split; [done|].
    destruct Hinv as [[-> Hno]|(b & -> & Hb & Hbv & Hfin & Hmin)]; [left|right].
    - split; [done|]. intros j Hj Hjv. apply Hno; [|done].
      destruct (decide (j = k)) as [->|]; [done|lia].
    - exists b. split_and!; [done|lia|done|done|].
      intros j Hj Hjv. apply Hmin; [|done].
      destruct (decide (j = k)) as [->|]; [done|lia]. }
  rewrite Hrow. simpl.
  destruct Hinv as [[-> Hno]|(b & -> & Hb & Hbv & Hfin & Hmin)]; simpl.
  - destruct (num_at row k <? infinity)%float eqn:Hlt;
      (eexists; split; [done|]); [right|left].
    + exists k. split_and!; [done|lia|done|done|].
      intros j Hj Hjv. destruct (decide (j = k)) as [->|Hne].
      * split; [apply ltb_irrefl|lia].
      * assert ((num_at row j <? infinity)%float = false) as Hj' by (apply Hno; [lia|done]).
        split; [|congruence].
        apply not_true_is_false. intros Hjk.
        rewrite (ltb_trans _ _ _ Hjk Hlt) in Hj'. done.
    + split; [done|]. intros j Hj Hjv.
      destruct (decide (j = k)) as [->|Hne]; [done|apply Hno; [lia|done]].
  - destruct (num_at row k <? num_at row b)%float eqn:Hlt;
      (eexists; split; [done|]); right.
    + exists k. split_and!; [done|lia|done|by eapply ltb_trans|].
      intros j Hj Hjv. destruct (decide (j = k)) as [->|Hne].
      * split; [apply ltb_irrefl|lia].
      * destruct (Hmin j) as [Hjb Htie]; [lia|done|]. split.
        -- apply not_true_is_false. intros Hjk.
           rewrite (ltb_trans _ _ _ Hjk Hlt) in Hjb. done.
        -- intros _ Hjfin. by eapply ltb_below.
    + exists b. split_and!; [done|lia|done|done|].
      intros j Hj Hjv. destruct (decide (j = k)) as [->|Hne].
      * split; [done|lia].
      * apply Hmin; [lia|done].
Qed.

Lemma scan_prefix_inv k :
  ∃ best, foldM (scan_step dist visited current) ((-1)%Z, infinity) (seq 0 k) = Returns best
          ∧ scan_inv visited row k best.
Proof.
  induction k as [|k (best & Hrun & Hinv)].
  { eexists. split; [done|]. left. split; [done|]. intros; lia. }
  destruct (scan_step_inv k best Hinv) as (best' & Hstep & Hinv').
  exists best'. split; [|done].
  rewrite seq_S, foldM_app, Hrun. simpl. by rewrite Hstep.
Qed.

Lemma scan_spec n : ∃ best, scan dist n visited current = Returns best ∧ scan_inv visited row n best.
Proof. apply scan_prefix_inv. Qed.

End Scan.

(** ** The greedy loop *)

Section Greedy.

Lemma unvisited_exists n (order : list Z) :
  NoDup order → in_range n order → length order < n →
  ∃ j, j < n ∧ Z.of_nat j ∉ order.
Proof.
  intros Hnd Hrange Hlen.
  destruct (decide (Forall (λ j, Z.of_nat j ∈ order) (seq 0 n))) as [Hall|Hex].
  - exfalso.
    assert (Z.of_nat <$> seq 0 n ⊆+ order) as Hsub.
    { apply NoDup_submseteq.
      - apply NoDup_fmap; [apply _|apply NoDup_seq].
      - intros x (j & -> & Hj)%list_elem_of_fmap.
        by eapply (proj1 (Forall_forall _ _)) in Hall. }
    apply submseteq_length in Hsub. rewrite length_fmap, length_seq in Hsub. lia.
  - apply not_Forall_Exists in Hex; [|apply _].
    apply Exists_exists in Hex as (j & Hj%elem_of_seq & Hnot). exists j. split; [lia|done].
Qed.

Lemma range_permutation n (order : list Z) :
  NoDup order → in_range n order → length order = n →
  order ≡ₚ Z.of_nat <$> seq 0 n.
Proof.
  intros Hnd Hrange Hlen. apply submseteq_length_Permutation.
  - apply NoDup_submseteq; [done|]. intros x Hx. apply Hrange in Hx.
    apply list_elem_of_fmap. exists (Z.to_nat x). split; [lia|]. apply elem_of_seq. lia.
  - rewrite length_fmap, length_seq. lia.
Qed.

Lemma row_of_in_range n dist c :
  square n dist → c < n →
  ∃ row, row_of dist (Z.of_nat c) = Returns row ∧ ∀ j, num_at row j = mat_get dist c j.
Proof.
  intros [Hlen _] Hc. unfold row_of, index_Z, mat_get.
  rewrite decide_True by lia. rewrite Nat2Z.id.
  destruct (lookup_lt_is_Some_2 dist c) as [row Hrow]; [lia|].
  rewrite Hrow. by exists row.
Qed.

Lemma seriate_loop_spec dist n :
  square n dist →
  (∀ i j, i < n → j < n → i ≠ j → (mat_get dist i j <? infinity)%float = true) →
  ∀ remaining visited order current,
    visited = list_to_set order →
    last order = Some current →
    NoDup order → in_range n order → length order + remaining = n →
    (∀ k b, 0 < k → order !! k = Some b → nearest_unvisited dist n (take k order) b) →
    ∃ order', seriate_loop dist n remaining visited order current = Returns order' ∧
      NoDup order' ∧ in_range n order' ∧ length order' = n ∧ head order' = head order ∧
      ∀ k b, 0 < k → order' !! k = Some b → nearest_unvisited dist n (take k order') b.
Proof.
  intros Hsq Hfin remaining.
  induction remaining as [|r IH]; intros visited order current -> Hlast Hnd Hrange Hlen Hgreedy.
  { exists order. simpl. split_and!; try done. lia. }
  simpl.
  assert (current ∈ order) as Hcur.
  { apply last_Some in Hlast as [l' ->]. set_solver. }
  pose proof (Hrange _ Hcur) as Hc.
  destruct (row_of_in_range n dist (Z.to_nat current) Hsq) as (row & Hrow & Hget); [lia|].
  rewrite Z2Nat.id in Hrow by lia.
  destruct (scan_spec dist (list_to_set order) current row Hrow n) as (best & -> & Hinv).
  simpl.
  assert (∀ j, j < n → Z.of_nat j ∉ (list_to_set order : gset Z) →
               (num_at row j <? infinity)%float = true) as Hfin'.
  { intros j Hj Hjv. rewrite Hget. apply Hfin; [lia|done|].
    intros <-. apply Hjv. rewrite Z2Nat.id by lia. set_solver. }
  destruct Hinv as [[-> Hno]|(b & -> & Hb & Hbv & _ & Hmin)].
  { exfalso. destruct (unvisited_exists n order) as (j & Hj & Hjv); [done|done|lia|].
    assert (Z.of_nat j ∉ (list_to_set order : gset Z)) as Hjv' by set_solver.
    specialize (Hno j Hj Hjv'). rewrite Hfin' in Hno; done. }
  simpl. assert (Z.of_nat b ∉ order) as Hbo by set_solver.
  destruct (IH ({[Z.of_nat b]} ∪ list_to_set order) (order ++ [Z.of_nat b]) (Z.of_nat b))
    as (order' & Hrun & Hnd' & Hrange' & Hlen' & Hhead & Hgreedy').
  - rewrite list_to_set_app_L. set_solver.
  - by rewrite last_snoc.
  - apply NoDup_app. split_and!; [done| |apply NoDup_singleton]. set_solver.
  - intros x [Hx| ->%list_elem_of_singleton]%elem_of_app; [by apply Hrange|lia].
  - rewrite length_app. simpl. lia.
  - intros k b' Hk Hlook.
    destruct (decide (k < length order)) as [Hlt|Hge].
    + rewrite lookup_app_l in Hlook by done.
      rewrite take_app_le by lia. by apply Hgreedy.
    + apply lookup_lt_Some in Hlook as Hk'. rewrite length_app in Hk'. simpl in Hk'.
      assert (k = length order) as -> by lia.
      rewrite list_lookup_middle in Hlook by done. simplify_eq.
      rewrite take_app_length.
      exists (Z.to_nat current), b. split_and!; [|done|done|done|].
      { rewrite Z2Nat.id by lia. done. }
      intros j Hj Hjv.
      assert (Z.of_nat j ∉ (list_to_set order : gset Z)) as Hjv' by set_solver.
      destruct (Hmin j Hj Hjv') as [Hle Htie]. rewrite <- !Hget. split; [done|].
      intros Hjb. apply Htie; [done|]. by apply Hfin'.
  - exists order'. split_and!; try done.
    rewrite Hhead. destruct order; [done|done].
Qed.

Lemma comparable_distances_get embeddings i j :
  comparable_distances embeddings = true →
  i < length embeddings → j < length embeddings → i ≠ j →
  (mat_get (buildDistanceMatrix embeddings) i j <? infinity)%float = true.
Proof.
  unfold comparable_distances. intros Hall Hi Hj Hne.
  rewrite buildDistanceMatrix_get by done.
  assert (∀ a b, a < b → b < length embeddings →
                 (cell embeddings a b <? infinity)%float = true) as Hcell.
  { intros a b Hab Hb.
    rewrite forallb_forall in Hall. specialize (Hall a).
    rewrite forallb_forall in Hall. apply Hall.
    - apply list_elem_of_In, elem_of_seq. lia.
    - apply list_elem_of_In, elem_of_seq. lia. }
  repeat case_decide; try lia; by apply Hcell.
Qed.

Lemma seriate_spec embeddings :
  comparable_distances embeddings = true →
  ∃ order, seriate embeddings = Returns order ∧
    NoDup order ∧ in_range (length embeddings) order ∧ length order = length embeddings ∧
    (2 ≤ length embeddings →
     greedy_order (buildDistanceMatrix embeddings) (length embeddings) order).
Proof.
  intros Hcmp. unfold seriate.
  destruct (decide (length embeddings ≤ 1)) as [Hle|Hgt].
  { destruct (decide (length embeddings = 1)) as [Heq|Hne]; eexists; (split; [done|]).
    - rewrite Heq. split_and!; [apply NoDup_singleton| |done|lia].
      intros x ->%list_elem_of_singleton. lia.
    - assert (length embeddings = 0) as -> by lia.
      split_and!; [apply NoDup_nil_2| |done|lia]. intros x Hx. by apply elem_of_nil in Hx. }
  destruct (seriate_loop_spec (buildDistanceMatrix embeddings) (length embeddings)
              (buildDistanceMatrix_square embeddings)
              (λ i j Hi Hj Hne, comparable_distances_get embeddings i j Hcmp Hi Hj Hne)
              (length embeddings - 1) {[0%Z]} [0%Z] 0%Z)
    as (order & Hrun & Hnd & Hrange & Hlen & Hhead & Hgreedy).
  - set_solver.
  - done.
  - apply NoDup_singleton.
  - intros x ->%list_elem_of_singleton. lia.
  - simpl. lia.
  - intros k b Hk Hlook. destruct k; [lia|done].
  - exists order. split_and!; done.
Qed.

(** The order returned on comparable distances is a permutation of the indices. *)
Lemma seriate_returns_permutation embeddings :
  comparable_distances embeddings = true →
  ∃ order, seriate embeddings = Returns order ∧
    length order = length embeddings ∧
    order ≡ₚ Z.of_nat <$> seq 0 (length embeddings).
Proof.
  intros Hcmp.
  destruct (seriate_spec embeddings Hcmp) as (order & Hrun & Hnd & Hrange & Hlen & _).
  exists order. split_and!; [done|done|]. by apply range_permutation.
Qed.

End Greedy.

(** ** cosineDistance *)

Section Cosine.

(** On equal arguments the three accumulators stay equal. *)
Lemma cosine_sums_self_equal a l acc :
  acc.1.1 = acc.1.2 → acc.1.2 = acc.2 →
  (foldl (cosine_step a a) acc l).1.1 = (foldl (cosine_step a a) acc l).1.2 ∧
  (foldl (cosine_step a a) acc l).1.2 = (foldl (cosine_step a a) acc l).2.
Proof.
  revert acc. induction l as [|i l IH]; intros [[dot normA] normB]; simpl; [done|].
  intros -> ->. by apply IH.
Qed.

Lemma cosine_sums_self a :
  cosine_sums a a = (sum_squares a, sum_squares a, sum_squares a).
Proof.
  unfold sum_squares, cosine_sums.
  destruct (cosine_sums_self_equal a (seq 0 (length a)) (0, 0, 0)%float) as [H1 H2]; [done..|].
  destruct (foldl _ _ _) as [[dot normA] normB]. simpl in *. by subst.
Qed.

(** [cosineDistance(a, a)] in terms of the computed sum of squares. *)
Lemma cosineDistance_self a :
  cosineDistance a a =
    let n2 := sum_squares a in
    let denom := (sqrt n2 * sqrt n2)%float in
    if (denom =? 0)%float then 1%float else (1 - n2 / denom)%float.
Proof. unfold cosineDistance. by rewrite cosine_sums_self. Qed.

End Cosine.

(** ** fetchEmbeddings *)

Section Fetch.











Lemma slice_batch {A} (l : list A) i :
  slice l i (i + EMBEDDING_BATCH_SIZE) = take EMBEDDING_BATCH_SIZE (drop i l).
Proof. unfold slice. f_equal. lia. Qed.

Lemma concat_slices {A} (l : list A) m :
  concat ((λ i, slice l i (i + EMBEDDING_BATCH_SIZE))
            <$> ((λ k, k * EMBEDDING_BATCH_SIZE) <$> seq 0 m))
  = take (m * EMBEDDING_BATCH_SIZE) l.
Proof.
  induction m as [|m IH]; [done|].
  rewrite seq_S, !fmap_app, concat_app, IH. cbn [fmap list_fmap concat Nat.add].
  rewrite app_nil_r, slice_batch, take_take_drop. f_equal. lia.
Qed.

Lemma batch_count_covers len :
  len ≤ (len + (EMBEDDING_BATCH_SIZE - 1)) / EMBEDDING_BATCH_SIZE * EMBEDDING_BATCH_SIZE.
Proof.
  unfold EMBEDDING_BATCH_SIZE.
  pose proof (Nat.div_mod_eq (len + (100 - 1)) 100).
  pose proof (Nat.mod_upper_bound (len + (100 - 1)) 100). lia.
Qed.

Lemma batch_count_tight len k :
  k < (len + (EMBEDDING_BATCH_SIZE - 1)) / EMBEDDING_BATCH_SIZE →
  k * EMBEDDING_BATCH_SIZE < len.
Proof.
  unfold EMBEDDING_BATCH_SIZE. intros Hk.
  pose proof (Nat.div_mod_eq (len + (100 - 1)) 100).
  pose proof (Nat.mod_upper_bound (len + (100 - 1)) 100). nia.
Qed.

Lemma concat_batches texts : concat (batches texts) = texts.
Proof.
  unfold batches, batch_starts. rewrite concat_slices.
  apply take_ge, batch_count_covers.
Qed.

Lemma batches_bounded texts :
  Forall (λ batch, 0 < length batch ≤ EMBEDDING_BATCH_SIZE) (batches texts).
Proof.
  unfold batches, batch_starts. rewrite <- list_fmap_compose.
  apply Forall_fmap, Forall_forall. intros k Hk%elem_of_seq. simpl.
  rewrite slice_batch, length_take, length_drop.
  assert (k * EMBEDDING_BATCH_SIZE < length texts) by (apply batch_count_tight; lia).
  unfold EMBEDDING_BATCH_SIZE in *. lia.
Qed.


(** The loop when the request after [k] answered ones fails. *)
Lemma fetch_loop_fails api texts status body :
  ∀ done_ i rest calls allEmbeddings,
    (∀ j i', done_ !! j = Some i' →
       ∃ data, api (length calls + j) (slice texts i' (i' + EMBEDDING_BATCH_SIZE)) = HttpOk data) →
    api (length calls + length done_) (slice texts i (i + EMBEDDING_BATCH_SIZE))
      = HttpError status body →
    fetch_loop api texts (done_ ++ i :: rest) calls allEmbeddings =
      (Throws (ApiError status body),
       calls ++ ((λ i, slice texts i (i + EMBEDDING_BATCH_SIZE)) <$> (done_ ++ [i]))).
Proof.
  induction done_ as [|i0 done_ IH]; intros i rest calls allEmbeddings Hok Hfail; simpl.
  { rewrite Nat.add_0_r in Hfail. by rewrite Hfail. }
  destruct (Hok 0 i0) as (data & Hdata); [done|].
  rewrite Nat.add_0_r in Hdata. rewrite Hdata. rewrite IH.
  - by rewrite <- app_assoc.
  - intros j i' Hj. rewrite length_app. simpl.
    replace (length calls + 1 + j) with (length calls + S j) by lia. by apply Hok.
  - rewrite length_app. simpl. simpl in Hfail.
    replace (length calls + 1 + length done_) with (length calls + S (length done_)) by lia.
    done.
Qed.

End Fetch.

(** ** seriate on an array of defined vectors *)

Section Typed.

Lemma distance_cell_dyn_typed (vs : list (list float)) i j m :
  i < length vs → j < length vs →
  distance_cell_dyn (Some <$> vs) i m j = Returns (distance_cell vs i m j).
Proof.
  intros Hi Hj. unfold distance_cell_dyn, distance_cell.
  destruct (lookup_lt_is_Some_2 vs i Hi) as [a Ha].
  destruct (lookup_lt_is_Some_2 vs j Hj) as [b Hb].
  rewrite !list_lookup_fmap, Ha, Hb. reflexivity.
Qed.

Lemma buildDistanceMatrix_dyn_typed (vs : list (list float)) :
  buildDistanceMatrix_dyn (Some <$> vs) = Returns (buildDistanceMatrix vs).
Proof.
  unfold buildDistanceMatrix_dyn, buildDistanceMatrix. rewrite length_fmap.
  apply (foldM_returns _ _ (λ _, True)); [|done].
  intros m i _ Hi%elem_of_seq. split; [|done].
  apply (foldM_returns _ _ (λ _, True)); [|done].
  intros m' j _ Hj%elem_of_seq. split; [|done].
  apply distance_cell_dyn_typed; lia.
Qed.

Lemma seriate_dyn_typed (vs : list (list float)) : seriate_dyn (Some <$> vs) = seriate vs.
Proof.
  unfold seriate_dyn, seriate. rewrite length_fmap.
  case_decide; [done|]. by rewrite buildDistanceMatrix_dyn_typed.
Qed.

End Typed.

(** ** The rank map *)

Section Ranks.

Lemma last_pos_Some id keys p :
  last_pos id keys = Some p ↔
  keys !! p = Some id ∧ ∀ q, p < q → keys !! q ≠ Some id.
Proof.
  revert p. induction keys as [|k ks IH]; intros p; simpl.
  { split; [done|]. by intros [? _]. }
  destruct (last_pos id ks) as [p'|] eqn:Hlast.
  - split.
    + intros [= <-]. destruct (proj1 (IH p') eq_refl) as [Hp' Hlater].
      split; [done|]. intros [|q] Hq; [lia|]. simpl. apply Hlater. lia.
    + intros [Hp Hlater]. destruct (proj1 (IH p') eq_refl) as [Hp' Hlater'].
      destruct p as [|p].
      * exfalso. by apply (Hlater (S p')); [lia|].
      * f_equal. f_equal. simpl in Hp.
        destruct (decide (p < p')) as [Hlt|Hge].
        { exfalso. by apply (Hlater (S p')); [lia|]. }
        destruct (decide (p' < p)) as [Hlt'|Hge']; [|lia].
        exfalso. by apply (Hlater' p).
  - assert (∀ q, ks !! q ≠ Some id) as Hnone.
    { intros q Hq. assert (is_Some (last_pos id ks)) as [? ?]; [|congruence].
      clear IH Hlast. revert q Hq. induction ks as [|k' ks IH']; intros q Hq; [done|].
      simpl. destruct q as [|q]; simpl in Hq.
      - simplify_eq. destruct (last_pos id ks); [done|]. by rewrite decide_True.
      - destruct (IH' q Hq) as [? ->]. done. }
    case_decide as Hk.
    + split.
      * intros [= <-]. split; [by subst|]. intros [|q] Hq; [lia|]. apply Hnone.
      * intros [Hp _]. destruct p as [|p]; [done|]. by apply Hnone in Hp.
    + split; [done|]. intros [Hp _]. destruct p as [|p]; simpl in Hp; [congruence|].
      by apply Hnone in Hp.
Qed.

Lemma last_pos_None id keys : last_pos id keys = None ↔ id ∉ keys.
Proof.
  split.
  - intros Hnone (p & Hp)%list_elem_of_lookup.
    assert (∃ p', last_pos id keys = Some p') as [p' Hp']; [|congruence].
    clear Hnone. revert p Hp. induction keys as [|k ks IH]; intros p Hp; [done|].
    simpl. destruct p as [|p]; simpl in Hp.
    + simplify_eq. destruct (last_pos id ks); [by eexists|]. rewrite decide_True by done.
      by eexists.
    + destruct (IH p Hp) as [p' ->]. by eexists.
  - intros Hnot. destruct (last_pos id keys) as [p|] eqn:Hp; [|done].
    apply last_pos_Some in Hp as [Hp _]. exfalso. apply Hnot.
    by eapply list_elem_of_lookup_2.
Qed.

(** What the rank loop leaves under a property name. *)
Lemma rank_loop_lookup messageIds order position ranks id :
  id ≠ "__proto__" →
  rank_loop messageIds order position ranks !! id =
    match last_pos id (rank_keys messageIds order) with
    | Some p => Some (position + Z.of_nat p + 1)%Z
    | None => ranks !! id
    end.
Proof.
  intros Hid. revert position ranks.
  induction order as [|x order IH]; intros position ranks; simpl; [done|].
  rewrite IH. fold (rank_keys messageIds order).
  destruct (last_pos id (rank_keys messageIds order)) as [p|]; [f_equal; lia|].
  unfold obj_set.
  destruct (decide (prop_key (index_Z messageIds x) = id)) as [Hkid|Hkid].
  - rewrite decide_False by congruence. rewrite Hkid, lookup_insert_eq. f_equal. lia.
  - destruct (decide (prop_key (index_Z messageIds x) = "__proto__")); [done|].
    by rewrite lookup_insert_ne.
Qed.

(** The name ["__proto__"] is never written. *)
Lemma rank_loop_proto messageIds order position ranks :
  rank_loop messageIds order position ranks !! "__proto__" = ranks !! "__proto__".
Proof.
  revert position ranks. induction order as [|x order IH]; intros position ranks; simpl; [done|].
  rewrite IH. unfold obj_set. case_decide as Hk; [done|]. by rewrite lookup_insert_ne.
Qed.

Lemma lookup_seq_fmap (ids : list string) :
  (λ j, prop_key (index_Z ids (Z.of_nat j))) <$> seq 0 (length ids) = ids.
Proof.
  apply list_eq. intros i. rewrite list_lookup_fmap.
  destruct (decide (i < length ids)) as [Hi|Hi].
  - rewrite lookup_seq_lt by done. simpl. unfold index_Z.
    rewrite decide_True by lia. rewrite Nat2Z.id.
    destruct (lookup_lt_is_Some_2 ids i Hi) as [id Hid]. by rewrite Hid.
  - rewrite lookup_seq_ge by lia. simpl. symmetry. apply lookup_ge_None. lia.
Qed.

(** Along a permutation of the indices the loop writes every id once. *)
Lemma rank_keys_permutation ids order :
  order ≡ₚ Z.of_nat <$> seq 0 (length ids) → rank_keys ids order ≡ₚ ids.
Proof.
  intros Hperm. unfold rank_keys. rewrite Hperm.
  rewrite <- list_fmap_compose. by rewrite <- (lookup_seq_fmap ids) at 2.
Qed.

End Ranks.

Section RankMap.

Lemma toRanks_lookup ids order id :
  toRanks ids order !! id =
    if decide (id = "__proto__") then None
    else (λ p, Z.of_nat p + 1)%Z <$> last_pos id (rank_keys ids order).
Proof.
  unfold toRanks. case_decide as Hid.
  - subst. by rewrite rank_loop_proto.
  - rewrite rank_loop_lookup by done.
    destruct (last_pos id (rank_keys ids order)); simpl; [f_equal; lia|done].
Qed.

Lemma last_pos_NoDup keys p id :
  NoDup keys → keys !! p = Some id → last_pos id keys = Some p.
Proof.
  intros Hnd Hp. apply last_pos_Some. split; [done|].
  intros q Hq Hq'. pose proof (NoDup_lookup _ _ _ _ Hnd Hp Hq'). lia.
Qed.

Lemma toRanks_contiguous ids order :
  NoDup ids → "__proto__" ∉ ids →
  order ≡ₚ Z.of_nat <$> seq 0 (length ids) →
  contiguous_ranks ids (toRanks ids order).
Proof.
  intros Hnd Hproto Hperm.
  pose proof (rank_keys_permutation ids order Hperm) as Hkeys.
  assert (NoDup (rank_keys ids order)) as Hndk by by rewrite Hkeys.
  assert (length (rank_keys ids order) = length ids) as Hlen by by rewrite Hkeys.
  split_and!.
  - apply set_eq. intros id. rewrite elem_of_dom, elem_of_list_to_set, toRanks_lookup.
    rewrite <- Hkeys. case_decide as Hid.
    + subst. split; [by intros [? ?]|]. intros Hin. exfalso. apply Hproto. by rewrite <- Hkeys.
    + rewrite fmap_is_Some. split.
      * intros [p Hp]. apply last_pos_Some in Hp as [Hp _]. by eapply list_elem_of_lookup_2.
      * intros Hin. destruct (last_pos id (rank_keys ids order)) eqn:Hlast; [done|].
        by apply last_pos_None in Hlast.
  - intros id r. rewrite toRanks_lookup. case_decide; [done|].
    intros (p & Hp & ->)%fmap_Some. apply last_pos_Some in Hp as [Hp%lookup_lt_Some _]. lia.
  - intros r Hr.
    destruct (lookup_lt_is_Some_2 (rank_keys ids order) (Z.to_nat (r - 1))) as [id Hid]; [lia|].
    exists id. rewrite toRanks_lookup. rewrite decide_False.
    + rewrite (last_pos_NoDup _ _ _ Hndk Hid). simpl. f_equal. lia.
    + intros ->. apply Hproto. rewrite <- Hkeys. by eapply list_elem_of_lookup_2.
  - intros id1 id2 r. rewrite !toRanks_lookup. repeat case_decide; try done.
    intros (p1 & Hp1 & ->)%fmap_Some (p2 & Hp2 & Heq)%fmap_Some.
    assert (p1 = p2) as -> by lia.
    apply last_pos_Some in Hp1 as [Hp1 _]. apply last_pos_Some in Hp2 as [Hp2 _]. congruence.
Qed.

End RankMap.

(** ** Repeated ids *)

Section Duplicates.

(** The entry of an id other than ["__proto__"] is the rank of the last
    position at which the loop wrote it. *)
Lemma duplicate_id_rank ids order id r :
  id ≠ "__proto__" →
  toRanks ids order !! id = Some r ↔
  ∃ p, r = (Z.of_nat p + 1)%Z ∧ rank_keys ids order !! p = Some id ∧
       ∀ q, p < q → rank_keys ids order !! q ≠ Some id.
Proof.
  intros Hid. rewrite toRanks_lookup, decide_False by done. rewrite fmap_Some. split.
  - intros (p & Hp & ->). exists p. split; [done|]. by apply last_pos_Some.
  - intros (p & -> & Hp). exists p. split; [|done]. by apply last_pos_Some.
Qed.

Lemma size_list_to_set_le (l : list string) : size (list_to_set l : gset string) ≤ length l.
Proof.
  induction l as [|x l IH]; [done|]. cbn [list_to_set length].
  destruct (decide (x ∈ l)) as [Hx|Hx].
  - replace ({[x]} ∪ list_to_set l : gset string) with (list_to_set l : gset string)
      by set_solver. lia.
  - rewrite size_union by set_solver. rewrite size_singleton. lia.
Qed.

Lemma size_list_to_set_dup (l : list string) :
  ¬ NoDup l → size (list_to_set l : gset string) < length l.
Proof.
  induction l as [|x l IH]; intros Hdup; cbn [list_to_set length].
  { exfalso. apply Hdup. constructor. }
  destruct (decide (x ∈ l)) as [Hx|Hx].
  - replace ({[x]} ∪ list_to_set l : gset string) with (list_to_set l : gset string)
      by set_solver. pose proof (size_list_to_set_le l). lia.
  - rewrite size_union by set_solver. rewrite size_singleton.
    assert (¬ NoDup l) as Hl by (intros Hnd; apply Hdup; by constructor).
    specialize (IH Hl). lia.
Qed.

(** With a repeated id the map has fewer keys than there are messages. *)
Lemma duplicate_ids_fewer_keys ids order :
  order ≡ₚ Z.of_nat <$> seq 0 (length ids) → ¬ NoDup ids →
  size (toRanks ids order) < length ids.
Proof.
  intros Hperm Hdup. pose proof (rank_keys_permutation ids order Hperm) as Hkeys.
  assert (dom (toRanks ids order) ⊆ (list_to_set ids : gset string)) as Hsub.
  { intros id [r Hr]%elem_of_dom. rewrite toRanks_lookup in Hr.
    case_decide; [done|]. apply fmap_Some in Hr as (p & Hp & _).
    apply last_pos_Some in Hp as [Hp _]. apply elem_of_list_to_set.
    rewrite <- Hkeys. by eapply list_elem_of_lookup_2. }
  apply subseteq_size in Hsub. rewrite size_dom in Hsub.
  pose proof (size_list_to_set_dup ids Hdup). lia.
Qed.

End Duplicates.

(** ** The run *)

Section Run.



Lemma fetchEmbeddings_fails api texts k status body :
  k < length (batches texts) →
  (∀ j, j < k → ∃ data, api j (batches texts !!! j) = HttpOk data) →
  api k (batches texts !!! k) = HttpError status body →
  fetchEmbeddings api texts = (Throws (ApiError status body), take (S k) (batches texts)).
Proof.
  unfold batches. set (starts := batch_starts (length texts)).
  rewrite length_fmap. intros Hk Hok Hfail.
  destruct (lookup_lt_is_Some_2 starts k Hk) as [i Hi].
  unfold fetchEmbeddings. fold starts.
  rewrite <- (take_drop_middle starts k i Hi).
  rewrite (fetch_loop_fails api texts status body).
  - simpl. rewrite take_drop_middle by done.
    rewrite <- fmap_take. by rewrite (take_S_r _ _ _ Hi).
  - intros j i' [Hj Hjk]%lookup_take_Some. simpl.
    destruct (Hok j Hjk) as [data Hdata]. exists data.
    rewrite (list_lookup_total_fmap _ starts) in Hdata by (apply lookup_lt_Some in Hj; done).
    by rewrite (list_lookup_total_correct _ _ _ Hj) in Hdata.
  - simpl. rewrite length_take_le by lia.
    rewrite (list_lookup_total_fmap _ starts) in Hfail by done.
    by rewrite (list_lookup_total_correct _ _ _ Hi) in Hfail.
Qed.

Lemma batches_nil : batches [] = [].
Proof. reflexivity. Qed.

End Run.

(** ** The scenarios of the specification *)

Example seriate_scenario : seriate scenario = Returns [0; 1; 2]%Z.
Proof. vm_compute. reflexivity. Qed.

Example seriate_empty : seriate [] = Returns [].
Proof. reflexivity. Qed.

Example seriate_single : seriate [[5; 5]%float] = Returns [0%Z].
Proof. reflexivity. Qed.

(** Why the rank-map theorem excludes the id ["__proto__"] and distances
    that do not compare: with distinct ids, the first run ranks only B, and
    the second files rank 2 under the name ["undefined"]. *)
Example reserved_id_run :
  final (handleSeriate reserved_world) = Done (<["B" := 2%Z]> ∅).
Proof. vm_compute. reflexivity. Qed.

Example overflow_run :
  final (handleSeriate overflow_world) = Done (<["A" := 1%Z]> (<["undefined" := 2%Z]> ∅)).
Proof. vm_compute. reflexivity. Qed.

(** The scenario of the specification: A and B cached, C fetched. *)
Example cached_run :
  handleSeriate cached_world =
    Result (Done (<["A" := 1%Z]> (<["B" := 2%Z]> (<["C" := 3%Z]> ∅))))
           (<["C" := Some [0; 1]%float]> (db cached_world)) [["c"]].
Proof. vm_compute. reflexivity. Qed.

(** ** The runs of [seriate] *)

Section Runs.
Import Machine.
Variables (dist : matrix) (n : nat).

Lemma step_deterministic c c1 c2 : step dist n c c1 → step dist n c c2 → c1 = c2.
Proof.
  intros H1 H2. inversion H1; subst; inversion H2; subst; try done; try lia; congruence.
Qed.

Lemma halted_stuck c c' result : cfg_point c = Halted result → ¬ step dist n c c'.
Proof. intros Hpoint Hstep. by inversion Hstep; subst. Qed.

(** From one configuration, runs end in one configuration. *)
Lemma rtc_step_halted c c1 c2 r1 r2 :
  rtc (step dist n) c c1 → cfg_point c1 = Halted r1 →
  rtc (step dist n) c c2 → cfg_point c2 = Halted r2 →
  c1 = c2.
Proof.
  intros Hrun1. revert c2. induction Hrun1 as [c|c c' c1 Hstep _ IH]; intros c2 Hr1 Hrun2 Hr2.
  - inversion Hrun2 as [|? c'' ? Hstep']; subst; [done|].
    by apply (halted_stuck _ _ _ Hr1) in Hstep'.
  - inversion Hrun2 as [|? c'' ? Hstep' Hrest]; subst.
    + by apply (halted_stuck _ _ _ Hr2) in Hstep.
    + rewrite (step_deterministic _ _ _ Hstep' Hstep) in Hrest. by apply IH.
Qed.

(** One iteration of the [for] loop, against [scan_step]. *)
Lemma scan_step_run visited order current j best :
  j < n →
  ∃ c, step dist n (Config visited order current (For_test j best.1 best.2)) c ∧
    match scan_step dist visited current best j with
    | Returns best' => c = Config visited order current (For_test (S j) best'.1 best'.2)
    | Throws e => c = Config visited order current (Halted (Throws e))
    end.
Proof.
  intros Hj. unfold scan_step. destruct (decide (Z.of_nat j ∈ visited)) as [Hin|Hout].
  { eexists. split; [by apply step_visited|done]. }
  unfold row_of. destruct (index_Z dist current) as [row|] eqn:Hrow; simpl.
  - destruct (num_at row j <? best.2)%float eqn:Hlt.
    + eexists. split; [by apply (step_nearer _ _ _ _ _ _ _ _ row)|done].
    + eexists. split; [by apply (step_not_nearer _ _ _ _ _ _ _ _ row)|done].
  - eexists. split; [by apply step_throw|done].
Qed.

(** The [for] loop from [j] on, against the fold of the functional model. *)
Lemma for_loop_run visited order current k :
  ∀ j best, j + k = n →
    ∃ c, rtc (step dist n) (Config visited order current (For_test j best.1 best.2)) c ∧
      match foldM (scan_step dist visited current) best (seq j k) with
      | Returns best' => c = Config visited order current (For_test n best'.1 best'.2)
      | Throws e => c = Config visited order current (Halted (Throws e))
      end.
Proof.
  induction k as [|k IH]; intros j best Hjk; cbn [seq foldM].
  { eexists. split; [apply rtc_refl|]. f_equal. f_equal. lia. }
  destruct (scan_step_run visited order current j best) as (c' & Hstep & Hc'); [lia|].
  destruct (scan_step dist visited current best j) as [best'|e];
    cbn [mbind outcome_bind bind]; subst c'.
  - destruct (IH (S j) best') as (c & Hrun & Hc); [lia|].
    exists c. split; [|done]. by eapply rtc_l.
  - eexists. split; [by apply rtc_once|done].
Qed.

(** The [while] loop, against [seriate_loop]. *)
Lemma while_loop_run remaining :
  ∀ visited order current, length order + remaining = n →
    ∃ c, rtc (step dist n) (Config visited order current While_test) c ∧
         cfg_point c = Halted (seriate_loop dist n remaining visited order current).
Proof.
  induction remaining as [|r IH]; intros visited order current Hlen; simpl.
  { eexists. split; [apply rtc_once, step_return; lia|done]. }
  destruct (for_loop_run visited order current n 0 ((-1)%Z, infinity)) as (c & Hfor & Hc);
    [done|].
  unfold scan. destruct (foldM (scan_step dist visited current) ((-1)%Z, infinity) (seq 0 n))
    as [best|e]; simpl; subst c.
  - destruct (IH ({[best.1]} ∪ visited) (order ++ [best.1]) best.1) as (c & Hrun & Hc).
    { rewrite length_app. simpl. lia. }
    exists c. split; [|done].
    eapply rtc_l; [apply step_enter; lia|].
    etrans; [exact Hfor|]. eapply rtc_l; [apply step_push; lia|done].
  - exists (Config visited order current (Halted (Throws e))). split; [|done].
    eapply rtc_l; [apply step_enter; lia|done].
Qed.

End Runs.

Section RunsOfSeriate.
Import Machine.

(** The run the functional model describes exists. *)
Lemma run_seriate embeddings : run embeddings (seriate embeddings).
Proof.
  unfold run, start, seriate. case_decide as Hn.
  { eexists. split; [apply rtc_refl|done]. }
  apply while_loop_run. simpl. lia.
Qed.

Lemma run_unique embeddings r1 r2 : run embeddings r1 → run embeddings r2 → r1 = r2.
Proof.
  intros (c1 & Hrun1 & Hr1) (c2 & Hrun2 & Hr2).
  pose proof (rtc_step_halted _ _ _ _ _ _ _ Hrun1 Hr1 Hrun2 Hr2) as ->. congruence.
Qed.

End RunsOfSeriate.

(** * The claims *)

(** C1, as the code has it: the embeddings fetched by a run are stored by one
    [storeEmbeddings] call made after [fetchEmbeddings] has returned. When
    request [k] is the first to fail, the run ends with that error, has sent
    the requests up to [k], and leaves the store exactly as it found it:
    nothing of the earlier, answered requests is persisted. *)
Theorem failed_batch_stores_nothing w key messages k status body :
  apiKey w = Some key → key ≠ "" → mail w = Folder messages →
  k < length (request_groups messages w) →
  (∀ j, j < k → ∃ data, api w j (request_groups messages w !!! j) = HttpOk data) →
  api w k (request_groups messages w !!! k) = HttpError status body →
  handleSeriate w =
    Result (Failed (ApiError status body)) (db w) (take (S k) (request_groups messages w)).
Proof.
  intros Hkey Hne Hmail Hk Hok Hfail. unfold request_groups, missing in *.
  assert (0 < length (needEmbedding (getEmbeddings (db w) (headerMessageId <$> messages))
                         messages)) as Hneed.
  { destruct (decide (0 < length (needEmbedding
      (getEmbeddings (db w) (headerMessageId <$> messages)) messages))) as [|Hz]; [done|].
    assert (needEmbedding (getEmbeddings (db w) (headerMessageId <$> messages)) messages = [])
      as Hnil by (apply nil_length_inv; lia).
    rewrite Hnil in Hk. simpl in Hk. lia. }
  assert (length messages ≠ 0) as Hmsgs.
  { intros Hz. apply nil_length_inv in Hz. subst messages. simpl in Hneed. lia. }
  unfold handleSeriate. rewrite Hkey, Hmail.
  rewrite decide_False by done. rewrite decide_False by done.
  unfold seriate_messages, collectEmbeddings.
  rewrite decide_True by done.
  by rewrite (fetchEmbeddings_fails _ _ k status body Hk Hok Hfail).
Qed.

(** C1, witness: the run of 101 uncached messages whose second request fails. *)
Lemma failed_batch_stores_nothing_witness :
  handleSeriate flaky_world =
    Result (Failed (ApiError 429 "rate limit")) ∅
           (take 2 (request_groups many_messages flaky_world)).
Proof.
  apply (failed_batch_stores_nothing flaky_world "sk" many_messages 1 429 "rate limit").
  - reflexivity.
  - discriminate.
  - reflexivity.
  - vm_compute. lia.
  - intros j Hj. destruct j as [|j]; [|lia]. eexists. reflexivity.
  - reflexivity.
Defined.

(** C1, counterexample: in that run the first request is answered, the second
    fails, and the store holds none of the first hundred embeddings. *)
Lemma flaky_run_loses_first_batch : ¬ persisted_before_failure many_messages flaky_world.
Proof.
  intros Hclaim.
  destruct (Hclaim 1 429 "rate limit") with (p := 0) (msg := Message "m0" "a") as [v Hv].
  - vm_compute. lia.
  - intros j Hj. destruct j as [|j]; [|lia]. eexists. reflexivity.
  - reflexivity.
  - unfold EMBEDDING_BATCH_SIZE. lia.
  - vm_compute. reflexivity.
  - vm_compute in Hv. discriminate.
Qed.

(** C2, the code at the failing input: for two vectors whose squared norm
    overflows the distance is NaN, the scan finds no candidate and the
    sentinel [-1] is pushed: [seriate] returns [0, -1], which is not a
    permutation of the indices [0, 1]. *)
Theorem seriate_overflow_not_permutation :
  seriate overflow2 = Returns [0; -1]%Z ∧ ¬ ([0; -1]%Z ≡ₚ Z.of_nat <$> seq 0 2).
Proof.
  split; [vm_compute; reflexivity|].
  intros Hperm. assert ((-1)%Z ∈ Z.of_nat <$> seq 0 2) as Hin by (rewrite <- Hperm; set_solver).
  apply list_elem_of_fmap in Hin as (j & Hj & _). lia.
Qed.

(** C3, the code at the failing input: with three overflowing vectors every
    distance is NaN; the first scan selects nothing and leaves [-1], and the
    second scan reads [dist[-1]] and throws: no index is appended. *)
Theorem seriate_overflow_throws :
  seriate overflow3 = Throws TypeError ∧
  scan (buildDistanceMatrix overflow3) 3 {[0%Z]} 0 = Returns ((-1)%Z, infinity) ∧
  scan (buildDistanceMatrix overflow3) 3 {[(-1)%Z; 0%Z]} (-1) = Throws TypeError.
Proof. vm_compute. done. Qed.

(** C4: any two runs of [seriate] on the same input end alike: with the same
    ordering, or both with the error thrown; and that outcome is the one the
    functional model computes. A run is a sequence of steps of the loops of
    [seriate] from the configuration set up before the [while] loop. *)
Theorem seriate_deterministic embeddings run1 run2 :
  Machine.run embeddings run1 → Machine.run embeddings run2 →
  run1 = run2 ∧ run1 = seriate embeddings.
Proof.
  intros Hrun1 Hrun2. split.
  - by apply (run_unique embeddings).
  - apply (run_unique embeddings); [done|apply run_seriate].
Qed.

(** C4, witness: two runs on the vectors of the specification's scenario. *)
Lemma seriate_deterministic_witness :
  Returns [0; 1; 2]%Z = Returns [0; 1; 2]%Z ∧ Returns [0; 1; 2]%Z = seriate scenario.
Proof.
  apply (seriate_deterministic scenario (Returns [0; 1; 2]%Z) (Returns [0; 1; 2]%Z));
    rewrite <- seriate_scenario; apply run_seriate.
Defined.

(** C5, the code at the failing inputs: the distance of [2, 3] to itself is
    negative, and so is that of the unit vector [unit_12] to itself; the
    distance between overflowing vectors, and between the zero vector and an
    overflowing one, is NaN. *)
Theorem cosineDistance_out_of_range :
  cosineDistance [2; 3]%float [2; 3]%float = (-0x1p-52)%float ∧
  (cosineDistance [2; 3] [2; 3] <? 0)%float = true ∧
  (cosineDistance unit_12 unit_12 <? 0)%float = true ∧
  is_nan (cosineDistance [1e200] [1e200])%float = true ∧
  is_nan (cosineDistance [0] [1e200])%float = true.
Proof. vm_compute. done. Qed.


(** C7, the code at the failing input: for two overflowing vectors both
    off-diagonal cells hold NaN, and [m[0][1] == m[1][0]] is false. *)
Theorem distance_matrix_nan_cells :
  buildDistanceMatrix overflow2 = [[0; nan]; [nan; 0]]%float ∧
  (mat_get (buildDistanceMatrix overflow2) 0 1
   =? mat_get (buildDistanceMatrix overflow2) 1 0)%float = false.
Proof. vm_compute. done. Qed.



(** C9, as the code has it: a run whose messages have distinct ids, none of
    them ["__proto__"], and whose collected embeddings are vectors with
    pairwise distances below [Infinity], produces a rank map that holds
    exactly the ids and whose values are [1..n], each taken once. *)
Theorem run_ranks_contiguous w key messages cached vs :
  apiKey w = Some key → key ≠ "" → mail w = Folder messages → 0 < length messages →
  (collectEmbeddings messages w).1.1 = Returns cached →
  embeddingArray cached (headerMessageId <$> messages) = Some <$> vs →
  comparable_distances vs = true →
  NoDup (headerMessageId <$> messages) →
  "__proto__" ∉ headerMessageId <$> messages →
  ∃ ranks, final (handleSeriate w) = Done ranks ∧
    contiguous_ranks (headerMessageId <$> messages) ranks.
Proof.
  intros Hkey Hne Hmail Hlen Hcollect Harray Hcmp Hnd Hproto.
  unfold handleSeriate. rewrite Hkey, Hmail.
  rewrite decide_False by done. rewrite decide_False by lia.
  unfold seriate_messages.
  destruct (collectEmbeddings messages w) as [[res db'] calls]. simpl in Hcollect. subst res.
  unfold rankMessages. rewrite Harray, seriate_dyn_typed.
  destruct (seriate_returns_permutation vs Hcmp) as (order & -> & _ & Hperm). simpl.
  eexists. split; [done|]. apply toRanks_contiguous; [done|done|].
  assert (length vs = length (headerMessageId <$> messages)) as <-; [|done].
  apply (f_equal length) in Harray. unfold embeddingArray in Harray.
  rewrite !length_fmap in Harray. by rewrite length_fmap.
Qed.

(** C9, witness: ids A and B are cached, C is fetched. *)
Lemma run_ranks_contiguous_witness :
  ∃ ranks, final (handleSeriate cached_world) = Done ranks ∧
    contiguous_ranks ["A"; "B"; "C"] ranks.
Proof.
  apply (run_ranks_contiguous cached_world "sk" three_messages
           (<["C" := Some [0; 1]%float]> (db cached_world)) scenario).
  - reflexivity.
  - discriminate.
  - reflexivity.
  - simpl. lia.
  - vm_compute. reflexivity.
  - vm_compute. reflexivity.
  - vm_compute. reflexivity.
  - simpl. repeat (apply NoDup_cons; split; [set_solver|]). apply NoDup_nil_2.
  - simpl. set_solver.
Defined.

(** C9, counterexample: two of three messages share the id A; the run maps A
    to 2 and C to 3, and no id to 1. *)
Lemma duplicate_ids_break_contiguity :
  ∃ ranks, final (handleSeriate duplicate_world) = Done ranks ∧
    ¬ contiguous_ranks (headerMessageId <$> duplicate_messages) ranks.
Proof.
  exists (<["A" := 2%Z]> (<["C" := 3%Z]> ∅)). split; [vm_compute; reflexivity|].
  intros (_ & _ & Hcover & _). destruct (Hcover 1%Z) as [id Hid]; [simpl; lia|].
  rewrite lookup_insert in Hid. case_decide; [done|].
  rewrite lookup_insert in Hid. case_decide; [done|].
  by rewrite lookup_empty in Hid.
Qed.

(** C10, the code at the failing input: two messages with the id
    ["__proto__"] are seriated, and the run hands over an empty rank map. *)
Theorem proto_id_gets_no_rank :
  final (handleSeriate proto_world) = Done ∅ ∧
  seriate_dyn (embeddingArray (db_after (handleSeriate proto_world))
                 (headerMessageId <$> proto_messages)) = Returns [0; 1]%Z.
Proof. vm_compute. done. Qed.

(** * Further facts *)

(** ** The object store *)

Section Store.
Implicit Types (db : gmap string (option (list float)))
               (entries : list (string * option (list float))).

Lemma storeEmbeddings_snoc db entries entry :
  storeEmbeddings db (entries ++ [entry]) = <[entry.1 := entry.2]> (storeEmbeddings db entries).
Proof. unfold storeEmbeddings. by rewrite foldl_app. Qed.

(** A record after [storeEmbeddings]: the last entry put under the key, or
    what the store held. *)
Lemma storeEmbeddings_lookup db entries id :
  storeEmbeddings db entries !! id =
    match list_to_map (M := gmap string (option (list float))) (reverse entries) !! id with
    | Some v => Some v
    | None => db !! id
    end.
Proof.
  induction entries as [|[k v] entries IH] using rev_ind; [done|].
  rewrite storeEmbeddings_snoc, reverse_snoc. simpl.
  destruct (decide (k = id)) as [->|Hne].
  - by rewrite !lookup_insert_eq.
  - by rewrite !lookup_insert_ne.
Qed.

Lemma storeEmbeddings_keep db entries id :
  id ∉ entries.*1 → storeEmbeddings db entries !! id = db !! id.
Proof.
  intros Hid. rewrite storeEmbeddings_lookup.
  rewrite (not_elem_of_list_to_map_1 (reverse entries) id); [done|].
  by rewrite fmap_reverse, elem_of_reverse.
Qed.

Lemma storeEmbeddings_present db entries id :
  id ∈ entries.*1 ∨ is_Some (db !! id) → is_Some (storeEmbeddings db entries !! id).
Proof.
  intros Hid. rewrite storeEmbeddings_lookup.
  destruct (list_to_map (reverse entries) !! id) as [v|] eqn:Hv; [done|].
  destruct Hid as [Hin|Hdb]; [|done].
  apply not_elem_of_list_to_map in Hv. rewrite fmap_reverse, elem_of_reverse in Hv. done.
Qed.

Lemma getEmbeddings_lookup db ids id :
  getEmbeddings db ids !! id = if decide (id ∈ ids) then db !! id else None.
Proof.
  unfold getEmbeddings. rewrite map_lookup_filter.
  destruct (db !! id) as [v|]; simpl; [|by case_decide].
  case_decide.
  - by rewrite option_guard_True.
  - by rewrite option_guard_False.
Qed.

Lemma getEmbeddings_store db entries ids :
  (∀ k, k ∈ entries.*1 → k ∈ ids) →
  getEmbeddings (storeEmbeddings db entries) ids = storeEmbeddings (getEmbeddings db ids) entries.
Proof.
  intros Hkeys. apply map_eq. intros id.
  rewrite getEmbeddings_lookup, !storeEmbeddings_lookup, getEmbeddings_lookup.
  destruct (list_to_map (reverse entries) !! id) as [v|] eqn:Hv; [|done].
  assert (id ∈ ids) as Hin; [|rewrite decide_True by done; reflexivity].
  apply Hkeys. apply elem_of_list_to_map_2 in Hv. rewrite elem_of_reverse in Hv.
  apply list_elem_of_fmap. exists (id, v). split; [reflexivity|assumption].
Qed.

End Store.

(** ** [fetchEmbeddings] whatever the answers *)

Section FetchAny.
Variables (api : provider) (texts : list string).

Lemma fetch_loop_cases starts :
  ∀ calls allEmbeddings,
    (fetch_loop api texts starts calls allEmbeddings =
       (Returns (allEmbeddings ++ concat (imap (λ j i,
                   answer_embeddings
                     (api (length calls + j) (slice texts i (i + EMBEDDING_BATCH_SIZE))))
                   starts)),
        calls ++ ((λ i, slice texts i (i + EMBEDDING_BATCH_SIZE)) <$> starts))
     ∧ ∀ j i, starts !! j = Some i →
         ∃ data, api (length calls + j) (slice texts i (i + EMBEDDING_BATCH_SIZE))
                 = HttpOk data)
    ∨ (∃ k i status body,
         starts !! k = Some i ∧
         api (length calls + k) (slice texts i (i + EMBEDDING_BATCH_SIZE))
           = HttpError status body ∧
         (∀ j i', j < k → starts !! j = Some i' →
            ∃ data, api (length calls + j) (slice texts i' (i' + EMBEDDING_BATCH_SIZE))
                    = HttpOk data) ∧
         fetch_loop api texts starts calls allEmbeddings =
           (Throws (ApiError status body),
            calls ++ ((λ i, slice texts i (i + EMBEDDING_BATCH_SIZE)) <$> take (S k) starts))).
Proof.
  induction starts as [|i starts IH]; intros calls allEmbeddings; cbn [fetch_loop].
  { left. split; [by rewrite !app_nil_r|done]. }
  destruct (api (length calls) (slice texts i (i + EMBEDDING_BATCH_SIZE)))
    as [status body|data] eqn:Hapi.
  - right. exists 0, i, status, body. split_and!; [done| | |done].
    + by rewrite Nat.add_0_r.
    + intros j i' Hj. lia.
  - destruct (IH (calls ++ [slice texts i (i + EMBEDDING_BATCH_SIZE)])
                 (allEmbeddings ++ (embedding <$> sort_by_index data)))
      as [[-> Hall]|(k & i' & status & body & Hk & Hfail & Hok & ->)].
    + left. split.
      * rewrite <- !app_assoc. cbn [imap concat fmap list_fmap app].
        rewrite Nat.add_0_r, Hapi. cbn [answer_embeddings].
        rewrite (imap_ext _ ((λ j i0, answer_embeddings
                   (api (length calls + j) (slice texts i0 (i0 + EMBEDDING_BATCH_SIZE)))) ∘ S)
                   starts); [done|].
        intros j x _. simpl. rewrite length_app. simpl. do 2 f_equal. lia.
      * intros [|j] i' Hlook; simpl in Hlook.
        { simplify_eq. rewrite Nat.add_0_r. eauto. }
        destruct (Hall j i' Hlook) as [data' Hdata']. exists data'.
        rewrite length_app in Hdata'. simpl in Hdata'.
        by replace (length calls + S j) with (length calls + 1 + j) by lia.
    + right. exists (S k), i', status, body. split_and!; [done| | |].
      * rewrite length_app in Hfail. simpl in Hfail.
        by replace (length calls + S k) with (length calls + 1 + k) by lia.
      * intros [|j] i'' Hj Hlook.
        { simpl in Hlook. simplify_eq. rewrite Nat.add_0_r. eauto. }
        simpl in Hlook. destruct (Hok j i'') as [data' Hdata']; [lia|done|].
        exists data'. rewrite length_app in Hdata'. simpl in Hdata'.
        by replace (length calls + S j) with (length calls + 1 + j) by lia.
      * by rewrite <- app_assoc.
Qed.

End FetchAny.

Lemma fetchEmbeddings_cases api texts :
  (fetchEmbeddings api texts =
     (Returns (concat (imap (λ k batch, answer_embeddings (api k batch)) (batches texts))),
      batches texts)
   ∧ ∀ k batch, batches texts !! k = Some batch → ∃ data, api k batch = HttpOk data)
  ∨ (∃ k batch status body,
       batches texts !! k = Some batch ∧
       api k batch = HttpError status body ∧
       (∀ j earlier, j < k → batches texts !! j = Some earlier →
          ∃ data, api j earlier = HttpOk data) ∧
       fetchEmbeddings api texts =
         (Throws (ApiError status body), take (S k) (batches texts))).
Proof.
  unfold fetchEmbeddings, batches.
  destruct (fetch_loop_cases api texts (batch_starts (length texts)) [] [])
    as [Hrun|(k & i & status & body & Hk & Hfail & Hok & Hrun)].
  - destruct Hrun as [Hrun Hall]. left. split.
    + rewrite Hrun. simpl. by rewrite imap_fmap.
    + intros k batch Hbatch. rewrite list_lookup_fmap in Hbatch.
      apply fmap_Some in Hbatch as (i & Hi & ->). by apply (Hall k i).
  - right. exists k, (slice texts i (i + EMBEDDING_BATCH_SIZE)), status, body.
    split_and!; [|done| |].
    + by rewrite list_lookup_fmap, Hk.
    + intros j earlier Hj Hlook. rewrite list_lookup_fmap in Hlook.
      apply fmap_Some in Hlook as (i' & Hi' & ->). by apply (Hok j i').
    + rewrite Hrun. simpl. by rewrite fmap_take.
Qed.

(** ** What a run does to the store and to the provider *)

Section RunEffects.

Lemma new_entries_keys need newEmbeddings :
  (new_entries need newEmbeddings).*1 = headerMessageId <$> need.
Proof.
  unfold new_entries. apply list_eq. intros i.
  rewrite !list_lookup_fmap, list_lookup_imap.
  by destruct (need !! i).
Qed.

Lemma missing_not_stored messages w m :
  m ∈ missing messages w ↔ m ∈ messages ∧ db w !! headerMessageId m = None.
Proof.
  unfold missing, needEmbedding. rewrite list_elem_of_filter, getEmbeddings_lookup.
  split.
  - intros [Hnone Hm]. split; [done|]. rewrite decide_True in Hnone; [done|].
    apply list_elem_of_fmap. by exists m.
  - intros [Hm Hnone]. split; [|done]. by case_decide.
Qed.

(** The three ways the collecting phase can go. *)
Lemma collectEmbeddings_cases messages w :
  (missing messages w = [] ∧
   collectEmbeddings messages w =
     (Returns (getEmbeddings (db w) (headerMessageId <$> messages)), db w, []))
  ∨ (∃ e calls,
       fetchEmbeddings (api w) (text <$> missing messages w) = (Throws e, calls) ∧
       collectEmbeddings messages w = (Throws e, db w, calls))
  ∨ (∃ newEmbeddings calls,
       fetchEmbeddings (api w) (text <$> missing messages w) = (Returns newEmbeddings, calls) ∧
       collectEmbeddings messages w =
         (Returns (storeEmbeddings (getEmbeddings (db w) (headerMessageId <$> messages))
                     (new_entries (missing messages w) newEmbeddings)),
          storeEmbeddings (db w) (new_entries (missing messages w) newEmbeddings), calls)).
Proof.
  unfold collectEmbeddings. fold (missing messages w).
  case_decide as Hlen.
  - right. destruct (fetchEmbeddings (api w) (text <$> missing messages w))
      as [[newEmbeddings|e] calls] eqn:Hfetch.
    + right. by exists newEmbeddings, calls.
    + left. by exists e, calls.
  - left. split; [|done]. apply nil_length_inv. lia.
Qed.

Lemma stored_keys_missing messages w newEmbeddings id v :
  db w !! id = Some v → id ∉ (new_entries (missing messages w) newEmbeddings).*1.
Proof.
  intros Hdb. rewrite new_entries_keys.
  intros (m & -> & Hm)%list_elem_of_fmap.
  apply missing_not_stored in Hm as [_ Hnone]. congruence.
Qed.

Lemma collect_store_grows messages w :
  db w ⊆ (collectEmbeddings messages w).1.2.
Proof.
  destruct (collectEmbeddings_cases messages w)
    as [[_ ->]|[(e & calls & _ & ->)|(newEmbeddings & calls & _ & ->)]]; simpl; [done..|].
  apply map_subseteq_spec. intros id v Hdb.
  rewrite storeEmbeddings_keep; [done|]. by eapply stored_keys_missing.
Qed.

Lemma fetchEmbeddings_requests api texts :
  (fetchEmbeddings api texts).2 `prefix_of` batches texts.
Proof.
  destruct (fetchEmbeddings_cases api texts)
    as [[-> _]|(k & batch & status & body & _ & _ & _ & ->)]; simpl; [done|].
  apply prefix_take.
Qed.

Lemma collect_requests_prefix messages w :
  (collectEmbeddings messages w).2 `prefix_of` request_groups messages w.
Proof.
  unfold request_groups.
  pose proof (fetchEmbeddings_requests (api w) (text <$> missing messages w)) as Hreq.
  destruct (collectEmbeddings_cases messages w)
    as [[_ ->]|[(e & calls & Hfetch & ->)|(newEmbeddings & calls & Hfetch & ->)]]; simpl.
  - apply prefix_nil.
  - by rewrite Hfetch in Hreq.
  - by rewrite Hfetch in Hreq.
Qed.

Lemma seriate_messages_store messages w :
  db_after (seriate_messages messages w) = (collectEmbeddings messages w).1.2 ∧
  requests (seriate_messages messages w) = (collectEmbeddings messages w).2.
Proof.
  unfold seriate_messages.
  destruct (collectEmbeddings messages w) as [[[cached|e] db'] calls]; simpl; [|done].
  by destruct (rankMessages _ cached).
Qed.

(** After the collecting phase has returned, every message has a record. *)
Lemma collect_records messages w cached db' calls m :
  collectEmbeddings messages w = (Returns cached, db', calls) →
  m ∈ messages →
  is_Some (db' !! headerMessageId m) ∧ is_Some (cached !! headerMessageId m) ∧
  cached = getEmbeddings db' (headerMessageId <$> messages).
Proof.
  intros Hcollect Hm.
  assert (headerMessageId m ∈ headerMessageId <$> messages) as Hid
    by (apply list_elem_of_fmap; by exists m).
  destruct (collectEmbeddings_cases messages w)
    as [[Hnone Heq]|[(e & calls' & _ & Heq)|(newEmbeddings & calls' & _ & Heq)]];
    rewrite Hcollect in Heq; simplify_eq.
  - assert (is_Some (db w !! headerMessageId m)) as Hdb.
    { destruct (db w !! headerMessageId m) eqn:Hlook; [done|].
      assert (m ∈ missing messages w) as Hin by by apply missing_not_stored.
      rewrite Hnone in Hin. by apply elem_of_nil in Hin. }
    split_and!; [done| |done]. rewrite getEmbeddings_lookup. by rewrite decide_True.
  - assert (headerMessageId m ∈ (new_entries (missing messages w) newEmbeddings).*1
            ∨ is_Some (db w !! headerMessageId m)) as Hcase.
    { destruct (db w !! headerMessageId m) eqn:Hlook; [by right|left].
      rewrite new_entries_keys. apply list_elem_of_fmap. exists m. split; [done|].
      by apply missing_not_stored. }
    split_and!.
    + by apply storeEmbeddings_present.
    + apply storeEmbeddings_present. destruct Hcase as [?|Hdb]; [by left|right].
      rewrite getEmbeddings_lookup. by rewrite decide_True.
    + symmetry. apply getEmbeddings_store. rewrite new_entries_keys.
      intros k (m' & -> & [Hm' _]%missing_not_stored)%list_elem_of_fmap.
      apply list_elem_of_fmap. by exists m'.
Qed.

End RunEffects.

(** ** What [seriate] returns on any input *)

Section SeriateAny.

Lemma scan_step_cases dist visited current best j :
  (∃ best', scan_step dist visited current best j = Returns best' ∧
            (best'.1 = best.1 ∨ best'.1 = Z.of_nat j))
  ∨ scan_step dist visited current best j = Throws TypeError.
Proof.
  unfold scan_step. case_decide; [left; eauto|].
  unfold row_of. destruct (index_Z dist current) as [row|]; simpl; [|by right].
  left. destruct (num_at row j <? best.2)%float; eauto.
Qed.

Lemma scan_cases dist visited current l best :
  (∃ best', foldM (scan_step dist visited current) best l = Returns best')
  ∨ foldM (scan_step dist visited current) best l = Throws TypeError.
Proof.
  revert best. induction l as [|j l IH]; intros best; simpl; [left; eauto|].
  destruct (scan_step_cases dist visited current best j) as [(best' & -> & _)| ->]; simpl;
    [apply IH|by right].
Qed.

Lemma seriate_loop_cases dist n remaining :
  ∀ visited order current,
    (∃ order', seriate_loop dist n remaining visited order current = Returns order' ∧
               length order' = length order + remaining ∧
               (order ≠ [] → head order' = head order))
    ∨ seriate_loop dist n remaining visited order current = Throws TypeError.
Proof.
  induction remaining as [|r IH]; intros visited order current; simpl.
  { left. exists order. split_and!; [done|lia|done]. }
  unfold scan. destruct (scan_cases dist visited current (seq 0 n) ((-1)%Z, infinity))
    as [[best ->]| ->]; simpl; [|by right].
  destruct (IH ({[best.1]} ∪ visited) (order ++ [best.1]) best.1)
    as [(order' & -> & Hlen & Hhead)| ->]; [left|by right].
  exists order'. split_and!; [done| |].
  - rewrite length_app in Hlen. simpl in Hlen. lia.
  - intros Hne. rewrite Hhead; [|by destruct order]. by destruct order.
Qed.

Lemma seriate_outcome embeddings :
  (∃ order, seriate embeddings = Returns order ∧ length order = length embeddings ∧
            (0 < length embeddings → head order = Some 0%Z))
  ∨ seriate embeddings = Throws TypeError.
Proof.
  unfold seriate. case_decide as Hn.
  { left. case_decide as H1; eexists; (split; [done|]).
    - rewrite H1. done.
    - split; [simpl; lia|lia]. }
  destruct (seriate_loop_cases (buildDistanceMatrix embeddings) (length embeddings)
              (length embeddings - 1) {[0%Z]} [0%Z] 0%Z)
    as [(order & -> & Hlen & Hhead)| ->]; [left|by right].
  exists order. split_and!; [done|simpl in Hlen; lia|]. intros _. by apply Hhead.
Qed.

(** The scan yields [-1] or an index below [n]. *)
Lemma scan_range dist visited current l best best' :
  foldM (scan_step dist visited current) best l = Returns best' →
  best'.1 = best.1 ∨ ∃ j, j ∈ l ∧ best'.1 = Z.of_nat j.
Proof.
  revert best. induction l as [|j l IH]; intros best; simpl.
  { intros [= <-]. by left. }
  destruct (scan_step_cases dist visited current best j) as [(b & -> & Hb)| ->]; simpl; [|done].
  intros [Hsame|(j' & Hj' & Heq)]%IH.
  - destruct Hb as [Hb|Hb]; [left; congruence|right]. exists j. split; [by left|congruence].
  - right. exists j'. split; [by right|done].
Qed.

Lemma seriate_loop_range dist n remaining :
  ∀ visited order current order',
    seriate_loop dist n remaining visited order current = Returns order' →
    Forall (λ x, (-1 ≤ x < Z.of_nat n)%Z) order →
    Forall (λ x, (-1 ≤ x < Z.of_nat n)%Z) order'.
Proof.
  induction remaining as [|r IH]; intros visited order current order'; simpl.
  { by intros [= <-]. }
  unfold scan.
  destruct (foldM (scan_step dist visited current) ((-1)%Z, infinity) (seq 0 n))
    as [best|e] eqn:Hscan; simpl; [|done].
  intros Hloop Horder. apply (IH _ _ _ _ Hloop).
  apply Forall_app. split; [done|]. apply Forall_singleton.
  destruct (scan_range _ _ _ _ _ _ Hscan) as [->|(j & Hj%elem_of_seq & ->)]; simpl; lia.
Qed.

Lemma seriate_range embeddings order :
  seriate embeddings = Returns order →
  Forall (λ x, (-1 ≤ x < Z.of_nat (length embeddings))%Z) order.
Proof.
  unfold seriate. case_decide as Hn.
  { case_decide as H1; intros [= <-]; [|done]. apply Forall_singleton. lia. }
  intros Hloop. apply (seriate_loop_range _ _ _ _ _ _ _ Hloop).
  apply Forall_singleton. lia.
Qed.

Lemma seriate_dyn_length embeddings order :
  seriate_dyn embeddings = Returns order → length order = length embeddings.
Proof.
  unfold seriate_dyn. case_decide as Hn.
  { case_decide as H1; intros [= <-]; simpl; lia. }
  destruct (buildDistanceMatrix_dyn embeddings) as [dist|e]; simpl; [|done].
  destruct (seriate_loop_cases dist (length embeddings) (length embeddings - 1)
              {[0%Z]} [0%Z] 0%Z) as [(order' & -> & Hlen & _)| ->]; [|done].
  intros [= <-]. simpl in Hlen. lia.
Qed.

End SeriateAny.

(** ** Ranks of any finished run *)

Section RanksAny.

Lemma rank_keys_elem ids order key :
  key ∈ rank_keys ids order → key ∈ ids ∨ key = "undefined".
Proof.
  unfold rank_keys. intros (x & -> & _)%list_elem_of_fmap.
  unfold prop_key, index_Z. case_decide; [|by right].
  destruct (ids !! Z.to_nat x) as [id|] eqn:Hid; [left|by right].
  by eapply list_elem_of_lookup_2.
Qed.

Lemma toRanks_bounds ids order id r :
  toRanks ids order !! id = Some r →
  (1 ≤ r ≤ Z.of_nat (length order))%Z ∧ (id ∈ ids ∨ id = "undefined") ∧ id ≠ "__proto__".
Proof.
  rewrite toRanks_lookup. case_decide as Hid; [done|].
  intros (p & Hp & ->)%fmap_Some. apply last_pos_Some in Hp as [Hp _].
  split; [|split; [by eapply rank_keys_elem, list_elem_of_lookup_2|done]].
  apply lookup_lt_Some in Hp. unfold rank_keys in Hp. rewrite length_fmap in Hp. lia.
Qed.

Lemma rank_keys_NoDup ids order :
  NoDup ids → NoDup order → in_range (length ids) order → NoDup (rank_keys ids order).
Proof.
  intros Hids Horder Hrange. unfold rank_keys.
  apply NoDup_fmap_2_strong; [|done].
  intros x y Hx Hy. unfold index_Z.
  pose proof (Hrange x Hx). pose proof (Hrange y Hy).
  rewrite !decide_True by lia.
  destruct (lookup_lt_is_Some_2 ids (Z.to_nat x)) as [a Ha]; [lia|].
  destruct (lookup_lt_is_Some_2 ids (Z.to_nat y)) as [b Hb]; [lia|].
  rewrite Ha, Hb. simpl. intros ->.
  pose proof (NoDup_lookup _ _ _ _ Hids Ha Hb). lia.
Qed.

End RanksAny.

(** ** Arithmetic of binary64 values *)

Section FloatArith.

Lemma Prim2SF_nan : Prim2SF nan = S754_nan.
Proof. reflexivity. Qed.

Lemma SF64mul_comm x y : SF64mul x y = SF64mul y x.
Proof.
  destruct x as [sx|sx| |sx mx ex], y as [sy|sy| |sy my ey]; simpl;
    rewrite ?(xorb_comm sx sy); try reflexivity.
  by rewrite (Pos.mul_comm mx my), (Z.add_comm ex ey).
Qed.

Lemma float_mul_comm x y : (x * y)%float = (y * x)%float.
Proof. apply Prim2SF_inj. rewrite !mul_spec. apply SF64mul_comm. Qed.

Lemma float_mul_nan_r x : (x * nan)%float = nan.
Proof.
  apply Prim2SF_inj. rewrite mul_spec, Prim2SF_nan. by destruct (Prim2SF x).
Qed.

Lemma float_add_nan_r x : (x + nan)%float = nan.
Proof.
  apply Prim2SF_inj. rewrite add_spec, Prim2SF_nan. by destruct (Prim2SF x).
Qed.

Lemma float_div_nan_r x : (x / nan)%float = nan.
Proof.
  apply Prim2SF_inj. rewrite div_spec, Prim2SF_nan. by destruct (Prim2SF x).
Qed.

(** A finite value is a zero or a finite nonzero number. *)
Lemma is_finite_cases z :
  is_finite z = true →
  (∃ s, Prim2SF z = S754_zero s) ∨ (∃ s m e, Prim2SF z = S754_finite s m e).
Proof.
  unfold is_finite, is_nan, is_infinity. rewrite !FloatAxioms.eqb_spec, abs_spec.
  destruct (Prim2SF z) as [s|s| |s m e] eqn:Hz; [by left; eauto|..|by right; eauto].
  - by destruct s.
  - done.
Qed.

Lemma float_mul_zero_finite z : is_finite z = true → (0 * z =? 0)%float = true.
Proof.
  intros Hz. rewrite FloatAxioms.eqb_spec, mul_spec.
  destruct (is_finite_cases z Hz) as [[s ->]|(s & m & e & ->)]; by destruct s.
Qed.

End FloatArith.

(** ** cosineDistance on vectors of different or equal length *)

Section CosineShape.

Lemma cosine_step_swap a b acc i :
  cosine_step b a (swap_norms acc) i = swap_norms (cosine_step a b acc i).
Proof.
  destruct acc as [[dot normA] normB]. unfold swap_norms. simpl.
  by rewrite (float_mul_comm (num_at b i) (num_at a i)).
Qed.

Lemma cosine_fold_swap a b l acc :
  foldl (cosine_step b a) (swap_norms acc) l = swap_norms (foldl (cosine_step a b) acc l).
Proof.
  revert acc. induction l as [|i l IH]; intros acc; cbn [foldl]; [done|].
  by rewrite cosine_step_swap, IH.
Qed.

Lemma cosine_sums_swap a b :
  length a = length b → cosine_sums b a = swap_norms (cosine_sums a b).
Proof.
  intros Hlen. unfold cosine_sums. rewrite <- Hlen.
  by rewrite <- cosine_fold_swap.
Qed.

(** Only the entries of [b] below [a.length] are read. *)
Lemma cosine_fold_take a b l acc :
  (∀ i, i ∈ l → i < length a) →
  foldl (cosine_step a (take (length a) b)) acc l = foldl (cosine_step a b) acc l.
Proof.
  revert acc. induction l as [|i l IH]; intros acc Hl; cbn [foldl]; [done|].
  rewrite IH by (intros j Hj; apply Hl; by right). f_equal.
  destruct acc as [[dot normA] normB]. unfold cosine_step, num_at.
  by rewrite lookup_take_lt by (apply Hl; left).
Qed.

(** Past the end of [b] the accumulators [dot] and [normB] become NaN. *)
Lemma cosine_fold_past_end a b l i acc :
  (∀ j, j ∈ l ++ [i] → length b ≤ j) →
  ∃ normA, foldl (cosine_step a b) acc (l ++ [i]) = (nan, normA, nan).
Proof.
  intros Hpast. rewrite foldl_app. simpl.
  destruct (foldl (cosine_step a b) acc l) as [[dot normA] normB]. simpl.
  assert (num_at b i = nan) as ->.
  { unfold num_at. rewrite lookup_ge_None_2; [done|]. apply Hpast. set_solver. }
  rewrite !float_mul_nan_r, !float_add_nan_r. eauto.
Qed.

(** The accumulator [normB] depends on [b] and on the number of iterations. *)
Lemma cosine_fold_normB a a' b l acc acc' :
  acc.2 = acc'.2 →
  (foldl (cosine_step a b) acc l).2 = (foldl (cosine_step a' b) acc' l).2.
Proof.
  revert acc acc'. induction l as [|i l IH]; intros acc acc' Hacc; cbn [foldl]; [done|].
  apply IH. destruct acc as [[dot normA] normB], acc' as [[dot' normA'] normB'].
  simpl in *. by subst.
Qed.

Lemma cosine_sums_normB a b : length a = length b → (cosine_sums a b).2 = sum_squares b.
Proof.
  intros Hlen. unfold sum_squares, cosine_sums. rewrite Hlen.
  by apply cosine_fold_normB.
Qed.

(** With only zeros in [a], the accumulator [normA] stays [+0]. *)
Lemma cosine_fold_zero a b l acc :
  zero_vector a →
  (∀ i, i ∈ l → i < length a) →
  acc.1.2 = 0%float →
  (foldl (cosine_step a b) acc l).1.2 = 0%float.
Proof.
  intros Hzero. revert acc. induction l as [|i l IH]; intros acc Hl Hacc; simpl; [done|].
  apply IH; [intros j Hj; apply Hl; by right|].
  destruct acc as [[dot normA] normB]. simpl in *. subst normA.
  destruct (lookup_lt_is_Some_2 a i) as [x Hx]; [apply Hl; left|].
  unfold num_at. rewrite Hx. simpl.
  unfold zero_vector in Hzero. rewrite Forall_forall in Hzero.
  by destruct (Hzero x (list_elem_of_lookup_2 _ _ _ Hx)) as [-> | ->].
Qed.

Lemma cosineDistance_zero a b :
  zero_vector a →
  is_finite (sqrt (cosine_sums a b).2) = true →
  cosineDistance a b = 1%float.
Proof.
  intros Hzero Hfin. unfold cosineDistance.
  pose proof (cosine_fold_zero a b (seq 0 (length a)) (0, 0, 0)%float Hzero) as HnormA.
  fold (cosine_sums a b) in HnormA.
  destruct (cosine_sums a b) as [[dot normA] normB]. simpl in *.
  rewrite HnormA; [|intros i Hi%elem_of_seq; lia|done].
  change (sqrt 0) with 0%float. by rewrite (float_mul_zero_finite _ Hfin).
Qed.

End CosineShape.

(** ** The distance of a vector to itself *)

Section SelfDistance.

(** A finite nonzero value divided by itself is exactly [1]. *)
Lemma float_div_self x s m e : Prim2SF x = S754_finite s m e → (x / x)%float = 1%float.
Proof.
  intros Hx. apply Prim2SF_inj. rewrite div_spec, Hx.
  unfold SF64div, SFdiv, SFdiv_core_binary.
  rewrite xorb_nilpotent, !Z.sub_diag.
  change (Z.min (fexp prec emax 0) 0) with (-53)%Z.
  change (0 - -53)%Z with 53%Z. cbv iota.
  rewrite Z.shiftl_mul_pow2 by lia.
  change IntDef.Z.div_eucl with Z.div_eucl.
  assert (Z.div_eucl (Z.pos m * 2 ^ 53) (Z.pos m) = ((2 ^ 53)%Z, 0%Z)) as ->.
  { pose proof (Z.div_eucl_eq (Z.pos m * 2 ^ 53) (Z.pos m)) as Heq.
    pose proof (Z.mod_pos_bound (Z.pos m * 2 ^ 53) (Z.pos m)) as Hmod.
    unfold Z.modulo, Z.div in *.
    destruct (Z.div_eucl (Z.pos m * 2 ^ 53) (Z.pos m)) as [q r] eqn:Hqr.
    specialize (Heq ltac:(lia)). specialize (Hmod ltac:(lia)).
    assert (q = 2 ^ 53)%Z by nia. subst q. f_equal. lia. }
  assert (new_location (Z.pos m) 0 = loc_Exact) as ->.
  { unfold new_location, new_location_even, new_location_odd. by destruct (Z.even _). }
  reflexivity.
Qed.

(** The accumulator [normB] over a suffix of the indices. *)
Lemma cosine_fold_suffix a pre l acc :
  a = pre ++ l →
  (foldl (cosine_step a a) acc (seq (length pre) (length l))).2
  = foldl (λ s x, s + x * x)%float acc.2 l.
Proof.
  revert pre acc. induction l as [|x l IH]; intros pre acc Ha; [done|].
  cbn [length seq foldl].
  specialize (IH (pre ++ [x]) (cosine_step a a acc (length pre))).
  rewrite length_app in IH. simpl in IH. rewrite Nat.add_1_r in IH.
  rewrite IH by (by rewrite <- app_assoc). f_equal.
  destruct acc as [[dot normA] normB]. simpl. unfold num_at.
  by rewrite Ha, (lookup_app_r pre), Nat.sub_diag by lia.
Qed.

Lemma sum_squares_alt a : sum_squares a = sum_of_squares a.
Proof.
  unfold sum_squares, cosine_sums, sum_of_squares.
  by rewrite (cosine_fold_suffix a [] a).
Qed.

End SelfDistance.

(** ** Runs that end with a rank map *)

Section Finished.

Lemma handleSeriate_Done_inv w ranks :
  final (handleSeriate w) = Done ranks →
  ∃ key messages, apiKey w = Some key ∧ key ≠ "" ∧ mail w = Folder messages ∧
    length messages ≠ 0 ∧ handleSeriate w = seriate_messages messages w.
Proof.
  unfold handleSeriate. destruct (apiKey w) as [key|]; [|done].
  case_decide; [done|]. destruct (mail w) as [| |messages]; [done..|].
  case_decide; [done|]. intros _. by exists key, messages.
Qed.

Lemma handleSeriate_checked w key messages :
  apiKey w = Some key → key ≠ "" → mail w = Folder messages → length messages ≠ 0 →
  handleSeriate w = seriate_messages messages w.
Proof.
  intros Hkey Hne Hmail Hlen. unfold handleSeriate. rewrite Hkey, Hmail.
  by rewrite !decide_False by done.
Qed.

Lemma seriate_messages_Done messages w ranks :
  final (seriate_messages messages w) = Done ranks →
  ∃ cached db' calls order,
    collectEmbeddings messages w = (Returns cached, db', calls) ∧
    seriate_dyn (embeddingArray cached (headerMessageId <$> messages)) = Returns order ∧
    ranks = toRanks (headerMessageId <$> messages) order ∧
    seriate_messages messages w = Result (Done ranks) db' calls.
Proof.
  unfold seriate_messages, rankMessages.
  destruct (collectEmbeddings messages w) as [[[cached|e] db'] calls]; [|done].
  destruct (seriate_dyn (embeddingArray cached (headerMessageId <$> messages)))
    as [order|e] eqn:Horder; simpl; [|done].
  intros [= <-]. by exists cached, db', calls, order.
Qed.

Lemma elem_of_concat {A} (x : A) (l : list A) (ls : list (list A)) :
  x ∈ l → l ∈ ls → x ∈ concat ls.
Proof.
  intros Hx Hl. induction Hl as [l ls|l l' ls _ IH]; simpl; apply elem_of_app; auto.
Qed.

(** Every request of a run is one of the groups of missing texts. *)
Lemma handleSeriate_requests w batch :
  batch ∈ requests (handleSeriate w) →
  ∃ messages, mail w = Folder messages ∧ batch ∈ request_groups messages w.
Proof.
  unfold handleSeriate. destruct (apiKey w) as [key|]; [|by intros ?%elem_of_nil].
  case_decide; [by intros ?%elem_of_nil|].
  destruct (mail w) as [| |messages]; [by intros ?%elem_of_nil..|].
  case_decide; [by intros ?%elem_of_nil|].
  rewrite (proj2 (seriate_messages_store messages w)). intros Hbatch.
  exists messages. split; [done|].
  destruct (collect_requests_prefix messages w) as [rest ->].
  apply elem_of_app. by left.
Qed.

Lemma filter_all {A} (P : A → Prop) `{!∀ x, Decision (P x)} (l : list A) :
  Forall P l → filter P l = l.
Proof.
  induction 1 as [|x l Hx _ IH]; [done|]. by rewrite filter_cons_True, IH.
Qed.

End Finished.

(** ** An array that holds [undefined] *)

Section Undefined.

Lemma foldM_throws {A B} (f : A → B → outcome A) e l x :
  x ∈ l →
  (∀ a y, y ∈ l → f a y = Throws e ∨ ∃ a', f a y = Returns a') →
  (∀ a, f a x = Throws e) →
  ∀ a, foldM f a l = Throws e.
Proof.
  induction l as [|y l IH]; intros Hx Hstep Hthrows a; [by apply elem_of_nil in Hx|].
  simpl. apply elem_of_cons in Hx as [->|Hx].
  { by rewrite Hthrows. }
  destruct (Hstep a y) as [->|[a' ->]]; [by left|done|]. simpl.
  apply IH; [done|intros a0 y0 Hy0; apply Hstep; by right|done].
Qed.

Lemma cosineDistance_dyn_cases a b :
  cosineDistance_dyn a b = Throws TypeError ∨ ∃ d, cosineDistance_dyn a b = Returns d.
Proof.
  destruct a as [[|x va]|], b as [vb|]; simpl; eauto.
Qed.

Lemma distance_cell_dyn_cases embeddings i m j :
  distance_cell_dyn embeddings i m j = Throws TypeError
  ∨ ∃ m', distance_cell_dyn embeddings i m j = Returns m'.
Proof.
  unfold distance_cell_dyn.
  destruct (cosineDistance_dyn_cases (mjoin (embeddings !! i)) (mjoin (embeddings !! j)))
    as [->|[d ->]]; simpl; eauto.
Qed.

Lemma distance_row_dyn_cases embeddings i l m :
  foldM (distance_cell_dyn embeddings i) m l = Throws TypeError
  ∨ ∃ m', foldM (distance_cell_dyn embeddings i) m l = Returns m'.
Proof.
  revert m. induction l as [|j l IH]; intros m; simpl; [eauto|].
  destruct (distance_cell_dyn_cases embeddings i m j) as [->|[m' ->]]; simpl; eauto.
Qed.

Lemma buildDistanceMatrix_dyn_undefined embeddings k :
  2 ≤ length embeddings → embeddings !! k = Some None →
  embeddings !! 0 ≠ Some (Some []) →
  buildDistanceMatrix_dyn embeddings = Throws TypeError.
Proof.
  intros Hn Hk Hfirst. unfold buildDistanceMatrix_dyn.
  apply (foldM_throws _ _ _ 0).
  - apply elem_of_seq. lia.
  - intros m i _. apply distance_row_dyn_cases.
  - intros m.
    destruct (lookup_lt_is_Some_2 embeddings 0) as [first Hfirst']; [lia|].
    destruct first as [v|].
    + (* the first entry is a vector: the pair [(0, k)] throws *)
      assert (k ≠ 0) as Hk0 by (intros ->; congruence).
      apply (foldM_throws _ _ _ k).
      * apply elem_of_seq. apply lookup_lt_Some in Hk. lia.
      * intros m' j _. apply distance_cell_dyn_cases.
      * intros m'. unfold distance_cell_dyn. rewrite Hfirst', Hk. simpl.
        destruct v; [congruence|done].
    + (* the first entry is [undefined]: the pair [(0, 1)] throws *)
      apply (foldM_throws _ _ _ 1).
      * apply elem_of_seq. lia.
      * intros m' j _. apply distance_cell_dyn_cases.
      * intros m'. unfold distance_cell_dyn. by rewrite Hfirst'.
Qed.

Lemma seriate_dyn_undefined embeddings k :
  2 ≤ length embeddings → embeddings !! k = Some None →
  embeddings !! 0 ≠ Some (Some []) →
  seriate_dyn embeddings = Throws TypeError.
Proof.
  intros Hn Hk Hfirst. unfold seriate_dyn. rewrite decide_False by lia.
  by rewrite (buildDistanceMatrix_dyn_undefined embeddings k).
Qed.

End Undefined.

(** ** The column's map *)

Section ColumnMap.

Lemma foldl_insert_lookup (l : list (string * Z)) (m : gmap string Z) id :
  foldl (λ m entry, <[entry.1 := entry.2]> m) m l !! id =
    match list_to_map (M := gmap string Z) (reverse l) !! id with
    | Some v => Some v
    | None => m !! id
    end.
Proof.
  induction l as [|[k v] l IH] using rev_ind; [done|].
  rewrite foldl_app, reverse_snoc. simpl.
  destruct (decide (k = id)) as [->|Hne].
  - by rewrite !lookup_insert_eq.
  - by rewrite !lookup_insert_ne.
Qed.

Lemma setRanks_map ranks current : setRanks ranks current = ranks.
Proof.
  apply map_eq. intros id. unfold setRanks. rewrite foldl_insert_lookup.
  rewrite (list_to_map_proper (reverse (map_to_list ranks)) (map_to_list ranks));
    [|rewrite fmap_reverse, reverse_Permutation; apply NoDup_fst_map_to_list
     |apply reverse_Permutation].
  rewrite list_to_map_to_list, lookup_empty. by destruct (ranks !! id).
Qed.

End ColumnMap.

(** ** Text extraction *)

Section Text.

Lemma part_induction (P : part → Prop) :
  (∀ c b children, Forall P children → P (Part c b (Some children))) →
  (∀ c b, P (Part c b None)) →
  ∀ p, P p.
Proof.
  intros Hsome Hnone. fix IH 1. intros [c b [children|]]; [|apply Hnone].
  apply Hsome. induction children as [|child rest IHrest]; constructor; [apply IH|apply IHrest].
Qed.

(** *** [trim] *)

Lemma trim_start_split s :
  ∃ r, s = r ++ trim_start s ∧ Forall (λ c, is_space c = true) r.
Proof.
  induction s as [|c s IH]; simpl; [by exists []|].
  destruct (is_space c) eqn:Hc; [|by exists []].
  destruct IH as (r & Hs & Hr). exists (c :: r). split; [simpl; congruence|by constructor].
Qed.

Lemma trim_start_head s c : head (trim_start s) = Some c → is_space c = false.
Proof.
  induction s as [|d s IH]; simpl; [done|].
  destruct (is_space d) eqn:Hd; [done|]. simpl. by intros [= <-].
Qed.

(** [trim] cuts a run of white space off each end. *)
Lemma trim_split s :
  ∃ l r, s = l ++ trim s ++ r ∧
    Forall (λ c, is_space c = true) l ∧ Forall (λ c, is_space c = true) r.
Proof.
  destruct (trim_start_split s) as (l & Hs & Hl).
  destruct (trim_start_split (reverse (trim_start s))) as (r & Hrev & Hr).
  exists l, (reverse r). split_and!; [|done|by apply Forall_reverse].
  unfold trim. rewrite <- reverse_app, <- Hrev, reverse_involutive. done.
Qed.

Lemma trim_trimmed s : trimmed (trim s).
Proof.
  unfold trimmed, trim. split.
  - intros c. rewrite head_reverse. intros Hlast.
    destruct (trim_start_split (reverse (trim_start s))) as (r & Hrev & Hr).
    destruct (trim_start (reverse (trim_start s))) as [|x t] eqn:Ht using rev_ind; [done|].
    clear IHt. rewrite last_snoc in Hlast. injection Hlast as ->.
    apply (f_equal reverse) in Hrev. rewrite reverse_involutive in Hrev.
    rewrite app_assoc, reverse_snoc in Hrev.
    apply (trim_start_head s c). by rewrite Hrev.
  - intros c. rewrite last_reverse. apply trim_start_head.
Qed.

(** *** [/\s+/g] *)

Lemma single_spaced_cons c s :
  single_spaced s →
  (is_space c = true → c = SPACE ∧ ∀ d, head s = Some d → is_space d = false) →
  single_spaced (c :: s).
Proof.
  intros Hs Hc [|i] x; simpl.
  - intros [= <-] Hx. destruct (Hc Hx) as [-> Hnext]. split; [done|].
    intros d Hd. apply Hnext. by rewrite head_lookup.
  - apply Hs.
Qed.

Lemma single_spaced_app_inv l s r : single_spaced (l ++ s ++ r) → single_spaced s.
Proof.
  intros Hall i c Hi Hc.
  destruct (Hall (length l + i) c) as [-> Hnext]; [|done|].
  { rewrite lookup_app_r by lia. replace (length l + i - length l) with i by lia.
    by rewrite lookup_app_l by by eapply lookup_lt_Some. }
  split; [done|]. intros d Hd. apply Hnext.
  replace (S (length l + i)) with (length l + S i) by lia.
  rewrite lookup_app_r by lia. replace (length l + S i - length l) with (S i) by lia.
  by rewrite lookup_app_l by by eapply lookup_lt_Some.
Qed.

Lemma collapse_spaces_spec in_run s :
  single_spaced (collapse_spaces in_run s) ∧
  (in_run = true → ∀ c, head (collapse_spaces in_run s) = Some c → is_space c = false).
Proof.
  revert in_run. induction s as [|c s IH]; intros in_run; simpl.
  { split; [by intros i c|done]. }
  destruct (is_space c) eqn:Hc.
  - destruct in_run.
    + apply IH.
    + split; [|done]. apply single_spaced_cons; [apply IH|].
      intros _. split; [done|]. by apply IH.
  - split.
    + apply single_spaced_cons; [apply IH|]. congruence.
    + intros _ d [= <-]. done.
Qed.

Lemma collapse_spaces_elem in_run s x :
  x ∈ collapse_spaces in_run s → x ∈ s ∨ x = SPACE.
Proof.
  revert in_run. induction s as [|c s IH]; intros in_run; simpl; [by left|].
  destruct (is_space c).
  - destruct in_run.
    + intros [?|?]%IH; [left; by right|by right].
    + intros [->|[?|?]%IH]%elem_of_cons; [by right|left; by right|by right].
  - intros [->|[?|?]%IH]%elem_of_cons; [left; by left|left; by right|by right].
Qed.

(** *** [/<[^>]+>/g] *)

Lemma tag_rest_length s rest : tag_rest s = Some rest → length rest < length s.
Proof.
  induction s as [|c s IH]; simpl; [done|].
  destruct (c =? GT_SIGN)%N; [intros [= <-]; lia|]. intros ?%IH. lia.
Qed.

Lemma tag_rest_None s : tag_rest s = None ↔ GT_SIGN ∉ s.
Proof.
  induction s as [|c s IH]; simpl; [split; [intros _; apply not_elem_of_nil|done]|].
  rewrite not_elem_of_cons. destruct (c =? GT_SIGN)%N eqn:Hc.
  - apply N.eqb_eq in Hc. split; [done|]. by intros [? _].
  - apply N.eqb_neq in Hc. rewrite IH. split; [by split|by intros [_ ?]].
Qed.

Lemma tag_rest_elem s rest x : tag_rest s = Some rest → x ∈ rest → x ∈ s.
Proof.
  induction s as [|c s IH]; simpl; [done|].
  destruct (c =? GT_SIGN)%N; [intros [= <-] ?; by right|].
  intros Hrest Hx. right. by apply IH.
Qed.

Lemma match_tag_length s rest : match_tag s = Some rest → length rest < length s.
Proof.
  destruct s as [|c [|d s]]; simpl; [done..|].
  destruct ((c =? LT_SIGN) && negb (d =? GT_SIGN))%N; [|done].
  intros ?%tag_rest_length. lia.
Qed.

Lemma match_tag_elem s rest x : match_tag s = Some rest → x ∈ rest → x ∈ s.
Proof.
  destruct s as [|c [|d s]]; simpl; [done..|].
  destruct ((c =? LT_SIGN) && negb (d =? GT_SIGN))%N; [|done].
  intros Hrest Hx. do 2 right. by eapply tag_rest_elem.
Qed.

(** More steps than [length s] change nothing. *)
Lemma replace_tags_steps n m s :
  length s ≤ n → length s ≤ m → replace_tags n s = replace_tags m s.
Proof.
  revert m s. induction n as [|n IH]; intros m s Hn Hm.
  { destruct s; [by destruct m|simpl in Hn; lia]. }
  destruct m as [|m]; [destruct s; [done|simpl in Hm; lia]|].
  destruct s as [|c s']; [done|]. cbn [replace_tags].
  destruct (match_tag (c :: s')) as [rest|] eqn:Hmatch.
  - apply match_tag_length in Hmatch. f_equal. apply IH; simpl in *; lia.
  - f_equal. apply IH; simpl in *; lia.
Qed.

Lemma replace_tags_elem steps s x :
  x ∈ replace_tags steps s → x ∈ s ∨ x = SPACE.
Proof.
  revert s. induction steps as [|steps IH]; intros s; simpl; [by left|].
  destruct s as [|c s']; [by left|].
  destruct (match_tag (c :: s')) as [rest|] eqn:Hmatch.
  - intros [->|[?|?]%IH]%elem_of_cons; [by right| |by right].
    left. by eapply match_tag_elem.
  - intros [->|[?|?]%IH]%elem_of_cons; [left; by left|left; by right|by right].
Qed.

Lemma replace_tags_no_tag steps s : length s ≤ steps → no_tag (replace_tags steps s).
Proof.
  revert s. induction steps as [|steps IH]; intros s Hlen.
  { destruct s; [done|simpl in Hlen; lia]. }
  destruct s as [|c s']; [done|]. cbn [replace_tags].
  destruct (match_tag (c :: s')) as [rest|] eqn:Hmatch.
  - split; [done|]. apply IH. apply match_tag_length in Hmatch. simpl in *. lia.
  - split; [|apply IH; simpl in Hlen; lia].
    intros ->. destruct s' as [|d s'']; [right; destruct steps; apply not_elem_of_nil|].
    simpl in Hmatch. destruct (d =? GT_SIGN)%N eqn:Hd.
    + apply N.eqb_eq in Hd as ->. left. destruct steps; [simpl in Hlen; lia|].
      by destruct s''.
    + right. intros [Hin|Heq]%replace_tags_elem; [|discriminate Heq].
      apply N.eqb_neq in Hd. apply tag_rest_None in Hmatch.
      apply elem_of_cons in Hin as [Heq|Hin]; done.
Qed.

Lemma no_tag_collapse in_run s : no_tag s → no_tag (collapse_spaces in_run s).
Proof.
  revert in_run. induction s as [|c s IH]; intros in_run; simpl; [done|].
  intros [Hc Hs]. destruct (is_space c) eqn:Hsp.
  - destruct in_run; [by apply IH|]. split; [done|by apply IH].
  - split; [|by apply IH]. intros Hlt. destruct (Hc Hlt) as [Hhead|Hnot].
    + left. destruct s as [|d s]; [done|]. injection Hhead as ->. done.
    + right. intros [?|?]%collapse_spaces_elem; done.
Qed.

Lemma no_tag_app_inv l s r :
  Forall (λ c, is_space c = true) r → no_tag (l ++ s ++ r) → no_tag s.
Proof.
  intros Hr. induction l as [|x l IH]; simpl; [|by intros [_ ?]; apply IH].
  induction s as [|c s IHs]; simpl; [done|].
  intros [Hc Hs]. split; [|by apply IHs].
  intros Hlt. destruct (Hc Hlt) as [Hhead|Hnot].
  - left. destruct s as [|d s]; [|done]. simpl in Hhead.
    destruct r as [|d r]; [done|]. injection Hhead as ->.
    by apply Forall_cons in Hr as [? _].
  - right. intros Hin. apply Hnot. apply elem_of_app. by left.
Qed.

Lemma no_tag_drop k s : no_tag s → no_tag (drop k s).
Proof.
  revert s. induction k as [|k IH]; intros [|c s]; simpl; try done.
  intros [_ ?]. by apply IH.
Qed.

Lemma no_tag_match s : no_tag s → match_tag s = None.
Proof.
  destruct s as [|c [|d s]]; simpl; [done..|]. intros [Hc _].
  destruct (c =? LT_SIGN)%N eqn:Hlt; [|done]. apply N.eqb_eq in Hlt.
  destruct (d =? GT_SIGN)%N eqn:Hgt; [done|]. simpl.
  destruct (Hc Hlt) as [[= ->]| Hnot]; [by rewrite N.eqb_refl in Hgt|].
  apply tag_rest_None. intros ?. apply Hnot. by right.
Qed.

Lemma html_to_text_no_tag body : no_tag (html_to_text body).
Proof.
  unfold html_to_text.
  destruct (trim_split (collapse_spaces false (strip_tags body))) as (l & r & Hsplit & _ & Hr).
  apply (no_tag_app_inv l _ r Hr). rewrite <- Hsplit.
  apply no_tag_collapse. by apply replace_tags_no_tag.
Qed.

Lemma html_to_text_spaced body : single_spaced (html_to_text body).
Proof.
  unfold html_to_text.
  destruct (trim_split (collapse_spaces false (strip_tags body))) as (l & r & Hsplit & _ & _).
  apply (single_spaced_app_inv l _ r). rewrite <- Hsplit. apply collapse_spaces_spec.
Qed.

(** *** [extractMessageText] *)

Lemma lit_length s : length (lit s) = String.length s.
Proof.
  unfold lit. rewrite length_fmap. induction s as [|c s IH]; simpl; [done|]. by rewrite IH.
Qed.

(** The model on concrete messages. *)
Example html_to_text_example : html_to_text html_body = lit "Hello world".
Proof. vm_compute. reflexivity. Qed.

Example is_space_examples :
  is_space 0x2005 = true ∧ is_space 0xFEFF = true ∧
  is_space 0x200B = false ∧ is_space 0x85 = false.
Proof. done. Qed.

Example strip_tags_examples :
  strip_tags (lit "<<a>b>") = lit " b>" ∧
  strip_tags (lit "a<>b<c") = lit "a<>b<c" ∧
  strip_tags (lit "a < b > c") = lit "a   c".
Proof. vm_compute. done. Qed.

(** An HTML part that strips to nothing is skipped in favour of the next
    part; as the root it hides its children. *)
Example alternative_message_text :
  extractBodyText alternative_message = lit "plain body" ∧
  extractBodyText
    (Part (Some "text/html") (Some (lit "<br>"))
          (Some [Part (Some "text/plain") (Some (lit "plain body")) None])) = [].
Proof. vm_compute. done. Qed.

End Text.

(** * Properties of the object store *)

(** X1: after [storeEmbeddings], [getEmbedding] gives the embedding of the
    last entry stored under the id; for an id that is not among the entries
    it gives what it gave before. *)
Theorem stored_embedding_last_wins (db : store) entries id :
  getEmbedding (storeEmbeddings db entries) id =
    match last (filter (λ entry, entry.1 = id) entries) with
    | Some entry => entry.2
    | None => getEmbedding db id
    end.
Proof.
  unfold getEmbedding. induction entries as [|[k v] entries IH] using rev_ind; [done|].
  rewrite storeEmbeddings_snoc, filter_app. cbn [fst snd].
  destruct (decide (k = id)) as [->|Hne].
  - rewrite lookup_insert_eq. rewrite (filter_cons_True _ (id, v)) by done.
    by rewrite filter_nil, last_snoc.
  - rewrite lookup_insert_ne by done. rewrite (filter_cons_False _ (k, v)) by done.
    by rewrite filter_nil, app_nil_r.
Qed.

(** X2: reading back the ids of entries just stored, all distinct, gives
    exactly those entries, whatever the store held before. *)
Theorem stored_entries_read_back (db : store) entries :
  NoDup entries.*1 →
  getEmbeddings (storeEmbeddings db entries) entries.*1 = list_to_map entries.
Proof.
  intros Hnd. apply map_eq. intros id.
  rewrite getEmbeddings_lookup, storeEmbeddings_lookup.
  rewrite (list_to_map_proper (reverse entries) entries);
    [|by rewrite fmap_reverse, reverse_Permutation|apply reverse_Permutation].
  case_decide as Hid.
  - destruct (list_to_map entries !! id) as [v|] eqn:Hv; [done|].
    by apply not_elem_of_list_to_map in Hv.
  - symmetry. by apply not_elem_of_list_to_map_1.
Qed.

(** X2, witness: a fresh id and an id the store already holds. *)
Lemma stored_entries_read_back_witness :
  getEmbeddings
    (storeEmbeddings (<["A" := Some [0; 1]%float]> (<["Z" := Some [1; 1]%float]> ∅))
       [("A", Some [1; 0]%float); ("B", None)])
    ["A"; "B"]
  = list_to_map [("A", Some [1; 0]%float); ("B", None)].
Proof.
  apply (stored_entries_read_back
           (<["A" := Some [0; 1]%float]> (<["Z" := Some [1; 1]%float]> ∅))
           [("A", Some [1; 0]%float); ("B", None)]).
  simpl. repeat (apply NoDup_cons; split; [set_solver|]). apply NoDup_nil_2.
Defined.

(** X3: storing the same entries a second time changes nothing. *)
Theorem storeEmbeddings_idempotent (db : store) entries :
  storeEmbeddings (storeEmbeddings db entries) entries = storeEmbeddings db entries.
Proof.
  apply map_eq. intros id. rewrite !storeEmbeddings_lookup.
  by destruct (list_to_map (reverse entries) !! id).
Qed.

(** * Properties of the embeddings client *)

(** X4: for a provider that answers every request, either by refusing it
    (a status that is not ok, with a body) or with a parsed body whose
    [data] array holds items with an [index] and an [embedding] ([fetch]
    and [response.json()] do not reject), and whatever the statuses, the
    number and the order of the items: [fetchEmbeddings] either gets an
    answer to every group of texts and returns, in request order, the
    embeddings of each answer sorted by index (it does not compare their
    number with the number of texts); or it stops at the first refused
    request, throwing that request's status and body after having sent the
    groups up to it. *)
Theorem fetchEmbeddings_answered_or_refused api texts :
  (fetchEmbeddings api texts =
     (Returns (concat (imap (λ k batch, answer_embeddings (api k batch)) (batches texts))),
      batches texts)
   ∧ ∀ k batch, batches texts !! k = Some batch → ∃ data, api k batch = HttpOk data)
  ∨ (∃ k batch status body,
       batches texts !! k = Some batch ∧
       api k batch = HttpError status body ∧
       (∀ j earlier, j < k → batches texts !! j = Some earlier →
          ∃ data, api j earlier = HttpOk data) ∧
       fetchEmbeddings api texts =
         (Throws (ApiError status body), take (S k) (batches texts))).
Proof. apply fetchEmbeddings_cases. Qed.

(** * Properties of a run *)

(** X5: a run never removes or changes a record the store already holds. *)
Theorem run_keeps_stored_records w : db w ⊆ db_after (handleSeriate w).
Proof.
  unfold handleSeriate. destruct (apiKey w) as [key|]; [|done].
  case_decide; [done|]. destruct (mail w) as [| |messages]; [done..|].
  case_decide; [done|].
  rewrite (proj1 (seriate_messages_store messages w)). apply collect_store_grows.
Qed.

(** X6: every request a run sends holds at most 100 texts, and each of them
    is the text of a message of the folder that has no record in the store. *)
Theorem run_requests_missing_texts w batch t :
  batch ∈ requests (handleSeriate w) → t ∈ batch →
  length batch ≤ EMBEDDING_BATCH_SIZE ∧
  ∃ messages m, mail w = Folder messages ∧ m ∈ messages ∧ text m = t ∧
    db w !! headerMessageId m = None.
Proof.
  intros (messages & Hmail & Hbatch)%handleSeriate_requests Ht.
  unfold request_groups in Hbatch. split.
  - pose proof (batches_bounded (text <$> missing messages w)) as Hbound.
    rewrite Forall_forall in Hbound. apply Hbound in Hbatch. lia.
  - assert (t ∈ text <$> missing messages w) as Hin.
    { rewrite <- (concat_batches (text <$> missing messages w)).
      by apply (elem_of_concat _ batch). }
    apply list_elem_of_fmap in Hin as (m & -> & [Hm Hnone]%missing_not_stored).
    by exists messages, m.
Qed.

(** X6, witness: the only request of the run in which A and B are cached. *)
Lemma run_requests_missing_texts_witness :
  length ["c"] ≤ EMBEDDING_BATCH_SIZE ∧
  ∃ messages m, mail cached_world = Folder messages ∧ m ∈ messages ∧ text m = "c" ∧
    db cached_world !! headerMessageId m = None.
Proof.
  apply (run_requests_missing_texts cached_world ["c"] "c").
  - rewrite cached_run. simpl. apply list_elem_of_here.
  - apply list_elem_of_here.
Defined.

(** X7: after a run that ended with a rank map, the store holds a record for
    every message of the folder. *)
Theorem finished_run_records_every_message w ranks messages m :
  final (handleSeriate w) = Done ranks → mail w = Folder messages → m ∈ messages →
  is_Some (db_after (handleSeriate w) !! headerMessageId m).
Proof.
  intros Hdone Hmail Hm.
  destruct (handleSeriate_Done_inv w ranks Hdone) as (key & messages' & _ & _ & Hmail' & _ & Hrun).
  rewrite Hmail in Hmail'. injection Hmail' as <-.
  rewrite Hrun in Hdone |- *.
  destruct (seriate_messages_Done messages w ranks Hdone)
    as (cached & db' & calls & order & Hcollect & _ & _ & ->). simpl.
  by destruct (collect_records messages w cached db' calls m Hcollect Hm) as [? _].
Qed.

(** X7, witness: message C, whose embedding the run fetched. *)
Lemma finished_run_records_every_message_witness :
  is_Some (db_after (handleSeriate cached_world) !! "C").
Proof.
  apply (finished_run_records_every_message cached_world
           (<["A" := 1%Z]> (<["B" := 2%Z]> (<["C" := 3%Z]> ∅))) three_messages
           (Message "C" "c")).
  - by rewrite cached_run.
  - reflexivity.
  - unfold three_messages. set_solver.
Defined.

(** X8: once the write that a finished run started without awaiting it
    has completed, a second run over the same folder from that store sends
    no request whatever the provider would answer, leaves the store as it
    is, and produces the same rank map. *)
Theorem rerun_uses_store_only w ranks store_now (api' : provider) :
  final (handleSeriate w) = Done ranks → write_completed w store_now →
  handleSeriate (World (apiKey w) (mail w) store_now api') =
    Result (Done ranks) store_now [].
Proof.
  intros Hdone ->.
  destruct (handleSeriate_Done_inv w ranks Hdone)
    as (key & messages & Hkey & Hne & Hmail & Hlen & Hrun).
  rewrite Hrun in Hdone |- *.
  destruct (seriate_messages_Done messages w ranks Hdone)
    as (cached & db' & calls & order & Hcollect & Horder & -> & ->). simpl.
  rewrite (handleSeriate_checked _ key messages) by done.
  assert (∀ m, m ∈ messages →
            is_Some (db' !! headerMessageId m) ∧
            cached = getEmbeddings db' (headerMessageId <$> messages)) as Hrecords.
  { intros m Hm.
    by destruct (collect_records messages w cached db' calls m Hcollect Hm) as (? & _ & ?). }
  assert (missing messages (World (apiKey w) (mail w) db' api') = []) as Hnone.
  { apply elem_of_nil_inv. intros m [Hm Hdb]%missing_not_stored. simpl in Hdb.
    destruct (Hrecords m Hm) as [[v Hv] _]. congruence. }
  unfold seriate_messages, collectEmbeddings.
  fold (missing messages (World (apiKey w) (mail w) db' api')). rewrite Hnone. simpl.
  destruct messages as [|m0 messages]; [done|].
  destruct (Hrecords m0) as [_ <-]; [by left|].
  unfold rankMessages. by rewrite Horder.
Qed.

(** X8, witness: the run with A and B cached, its write completed, then a
    run against a provider that refuses every request. *)
Lemma rerun_uses_store_only_witness :
  handleSeriate rerun_world =
    Result (Done (<["A" := 1%Z]> (<["B" := 2%Z]> (<["C" := 3%Z]> ∅))))
           (db_after (handleSeriate cached_world)) [].
Proof.
  apply (rerun_uses_store_only cached_world
           (<["A" := 1%Z]> (<["B" := 2%Z]> (<["C" := 3%Z]> ∅)))
           (db_after (handleSeriate cached_world))
           (λ _ _, HttpError 503 "unavailable")).
  - by rewrite cached_run.
  - reflexivity.
Defined.

(** X9: in the rank map of any finished run, every value lies between 1 and
    the number of messages, and every key is the id of a message of the
    folder or the string ["undefined"]; the key ["__proto__"] never occurs. *)
Theorem finished_run_rank_bounds w ranks messages id r :
  final (handleSeriate w) = Done ranks → mail w = Folder messages →
  ranks !! id = Some r →
  (1 ≤ r ≤ Z.of_nat (length messages))%Z ∧
  (id ∈ headerMessageId <$> messages ∨ id = "undefined") ∧ id ≠ "__proto__".
Proof.
  intros Hdone Hmail Hr.
  destruct (handleSeriate_Done_inv w ranks Hdone) as (key & messages' & _ & _ & Hmail' & _ & Hrun).
  rewrite Hmail in Hmail'. injection Hmail' as <-.
  rewrite Hrun in Hdone.
  destruct (seriate_messages_Done messages w ranks Hdone)
    as (cached & db' & calls & order & _ & Horder & -> & _).
  apply seriate_dyn_length in Horder. unfold embeddingArray in Horder.
  rewrite !length_fmap in Horder. rewrite <- Horder.
  by apply toRanks_bounds.
Qed.

(** X9, witness: the run over two overflowing vectors files rank 2 under
    the name ["undefined"]. *)
Lemma finished_run_rank_bounds_witness :
  (1 ≤ 2 ≤ Z.of_nat 2)%Z ∧
  ("undefined" ∈ ["A"; "B"] ∨ "undefined" = "undefined") ∧ "undefined" ≠ "__proto__".
Proof.
  apply (finished_run_rank_bounds overflow_world
           (<["A" := 1%Z]> (<["undefined" := 2%Z]> ∅))
           [Message "A" "a"; Message "B" "b"] "undefined" 2%Z).
  - apply overflow_run.
  - reflexivity.
  - reflexivity.
Defined.

(** X10: a record without an embedding makes the run fail and stays in the
    store. When the folder has two or more messages, the first of them has
    a record that is not an empty vector, and some message has a record whose
    embedding is [undefined], the run ends with an error, and that record is
    still in the store afterwards. *)
Theorem undefined_record_fails_run w key messages first v m :
  apiKey w = Some key → key ≠ "" → mail w = Folder messages → 2 ≤ length messages →
  messages !! 0 = Some first → db w !! headerMessageId first = Some v → v ≠ Some [] →
  m ∈ messages → db w !! headerMessageId m = Some None →
  (∃ e, final (handleSeriate w) = Failed e) ∧
  db_after (handleSeriate w) !! headerMessageId m = Some None.
Proof.
  intros Hkey Hne Hmail Hlen Hfirst Hv Hnonempty Hm Hrecord. split.
  - rewrite (handleSeriate_checked w key messages) by (done || lia).
    unfold seriate_messages.
    destruct (collectEmbeddings messages w) as [[[cached|e] db'] calls] eqn:Hcollect;
      [|by eauto].
    assert (db w ⊆ db') as Hsub.
    { pose proof (collect_store_grows messages w) as Hgrow. by rewrite Hcollect in Hgrow. }
    assert (∀ m', m' ∈ messages → cached !! headerMessageId m' = db' !! headerMessageId m')
      as Hcached.
    { intros m' Hm'.
      destruct (collect_records messages w cached db' calls m' Hcollect Hm') as (_ & _ & ->).
      rewrite getEmbeddings_lookup, decide_True; [done|].
      apply list_elem_of_fmap. by exists m'. }
    apply list_elem_of_lookup in Hm as [k Hk].
    unfold rankMessages.
    rewrite (seriate_dyn_undefined _ k); [by eauto|..].
    + unfold embeddingArray. by rewrite !length_fmap.
    + unfold embeddingArray. rewrite !list_lookup_fmap, Hk. simpl.
      rewrite Hcached by by eapply list_elem_of_lookup_2.
      by rewrite (lookup_weaken _ _ _ _ Hrecord Hsub).
    + unfold embeddingArray. rewrite !list_lookup_fmap, Hfirst. simpl.
      rewrite Hcached by by eapply list_elem_of_lookup_2.
      rewrite (lookup_weaken _ _ _ _ Hv Hsub). simpl. congruence.
  - pose proof (collect_store_grows messages w) as Hgrow.
    rewrite (handleSeriate_checked w key messages) by (done || lia).
    rewrite (proj1 (seriate_messages_store messages w)).
    by apply (lookup_weaken _ _ _ _ Hrecord).
Qed.

(** X10, witness: the record of B holds no embedding. *)
Lemma undefined_record_fails_run_witness :
  (∃ e, final (handleSeriate undefined_world) = Failed e) ∧
  db_after (handleSeriate undefined_world) !! "B" = Some None.
Proof.
  apply (undefined_record_fails_run undefined_world "sk"
           [Message "A" "a"; Message "B" "b"] (Message "A" "a") (Some [1; 0]%float)
           (Message "B" "b")).
  - reflexivity.
  - discriminate.
  - reflexivity.
  - simpl. lia.
  - reflexivity.
  - reflexivity.
  - discriminate.
  - set_solver.
  - reflexivity.
Defined.

(** X11: once the write that a finished run started without awaiting it
    has completed, the viewer finds an embedding record for every message
    of the folder: the list it keeps is the whole folder. *)
Theorem viewer_keeps_all_after_run w ranks messages store_now :
  final (handleSeriate w) = Done ranks → mail w = Folder messages →
  write_completed w store_now →
  messagesWithEmbeddings store_now messages = messages.
Proof.
  intros Hdone Hmail ->.
  destruct (handleSeriate_Done_inv w ranks Hdone) as (key & messages' & _ & _ & Hmail' & _ & Hrun).
  rewrite Hmail in Hmail'. injection Hmail' as <-.
  rewrite Hrun in Hdone |- *.
  destruct (seriate_messages_Done messages w ranks Hdone)
    as (cached & db' & calls & order & Hcollect & _ & _ & ->). simpl.
  unfold messagesWithEmbeddings. apply filter_all, Forall_forall. intros m Hm.
  destruct (collect_records messages w cached db' calls m Hcollect Hm) as (_ & Hcached & <-).
  done.
Qed.

(** X11, witness: the run with A and B cached, its write completed. *)
Lemma viewer_keeps_all_after_run_witness :
  messagesWithEmbeddings (db_after (handleSeriate cached_world)) three_messages
  = three_messages.
Proof.
  apply (viewer_keeps_all_after_run cached_world
           (<["A" := 1%Z]> (<["B" := 2%Z]> (<["C" := 3%Z]> ∅))) three_messages
           (db_after (handleSeriate cached_world))).
  - by rewrite cached_run.
  - reflexivity.
  - reflexivity.
Defined.

(** * Properties of the seriation core *)

(** X12: on any input [seriate] either throws a [TypeError], or returns as
    many entries as there are vectors, the first of them [0], each of them
    an index below [n] or [-1]; it fails in no other way. *)
Theorem seriate_length_or_TypeError embeddings :
  (∃ order, seriate embeddings = Returns order ∧ length order = length embeddings ∧
            (0 < length embeddings → head order = Some 0%Z) ∧
            Forall (λ x, (-1 ≤ x < Z.of_nat (length embeddings))%Z) order)
  ∨ seriate embeddings = Throws TypeError.
Proof.
  destruct (seriate_outcome embeddings) as [(order & Hrun & Hlen & Hhead)|Hthrow];
    [left|by right].
  exists order. split_and!; [done..|]. by apply seriate_range.
Qed.

(** X13: an array of two or more entries that holds [undefined] somewhere,
    and whose first entry is not an empty vector, makes [seriate] throw a
    [TypeError]. *)
Theorem seriate_undefined_entry_throws embeddings k :
  2 ≤ length embeddings → embeddings !! k = Some None →
  embeddings !! 0 ≠ Some (Some []) →
  seriate_dyn embeddings = Throws TypeError.
Proof. apply seriate_dyn_undefined. Qed.

(** X13, witness: a vector followed by [undefined]. *)
Lemma seriate_undefined_entry_throws_witness :
  seriate_dyn [Some [1; 0]%float; None] = Throws TypeError.
Proof.
  apply (seriate_undefined_entry_throws [Some [1; 0]%float; None] 1).
  - simpl. lia.
  - reflexivity.
  - discriminate.
Defined.

(** X14: for vectors of equal length, [cosineDistance] gives the same value
    with its arguments exchanged. *)
Theorem cosineDistance_symmetric a b :
  length a = length b → cosineDistance a b = cosineDistance b a.
Proof.
  intros Hlen. unfold cosineDistance. rewrite (cosine_sums_swap a b Hlen).
  destruct (cosine_sums a b) as [[dot normA] normB]. unfold swap_norms. simpl.
  by rewrite (float_mul_comm (sqrt normB) (sqrt normA)).
Qed.

(** X14, witness: two vectors of the specification's scenario. *)
Lemma cosineDistance_symmetric_witness :
  cosineDistance [1; 0.001]%float [0; 1]%float = cosineDistance [0; 1]%float [1; 0.001]%float.
Proof. apply (cosineDistance_symmetric [1; 0.001]%float [0; 1]%float). reflexivity. Defined.

(** X15: when the second vector is shorter than the first, the reads past
    its end give [undefined] and the result is NaN. *)
Theorem cosineDistance_shorter_is_nan a b :
  length b < length a → cosineDistance a b = nan.
Proof.
  intros Hlen. unfold cosineDistance, cosine_sums.
  assert (seq 0 (length a)
          = seq 0 (length b)
              ++ seq (length b) (length a - length b - 1) ++ [length a - 1]) as ->.
  { replace (length a) with (length b + S (length a - length b - 1)) at 1 by lia.
    rewrite seq_app, seq_S. do 3 f_equal. lia. }
  rewrite foldl_app.
  destruct (cosine_fold_past_end a b
              (seq (length b) (length a - length b - 1)) (length a - 1)
              (foldl (cosine_step a b) (0, 0, 0)%float (seq 0 (length b))))
    as [normA ->].
  { intros j. rewrite elem_of_app, list_elem_of_singleton, elem_of_seq. lia. }
  rewrite float_mul_nan_r. cbn -[PrimFloat.div PrimFloat.sub]. by rewrite float_div_nan_r.
Qed.

(** X15, witness. *)
Lemma cosineDistance_shorter_is_nan_witness :
  cosineDistance [1; 2; 3]%float [1; 2]%float = nan.
Proof. apply (cosineDistance_shorter_is_nan [1; 2; 3]%float [1; 2]%float). simpl. lia. Defined.

(** X16: entries of the second vector at or beyond the length of the first
    are never read: the result is that of the second vector cut to the
    length of the first. *)
Theorem cosineDistance_ignores_extra_entries a b :
  cosineDistance a b = cosineDistance a (take (length a) b).
Proof.
  unfold cosineDistance, cosine_sums.
  rewrite cosine_fold_take; [done|]. intros i Hi%elem_of_seq. lia.
Qed.

(** X17: the distance from a vector of zeros to a vector of the same length
    whose norm is finite is exactly [1]. *)
Theorem cosineDistance_zero_vector a b :
  zero_vector a → length a = length b →
  is_finite (sqrt (sum_squares b)) = true →
  cosineDistance a b = 1%float.
Proof.
  intros Hzero Hlen Hfin. apply cosineDistance_zero; [done|].
  by rewrite (cosine_sums_normB a b Hlen).
Qed.

(** X17, witness: a vector holding [+0] and [-0]. *)
Lemma cosineDistance_zero_vector_witness :
  cosineDistance [0; -0]%float [3; 4]%float = 1%float.
Proof.
  apply (cosineDistance_zero_vector [0; -0]%float [3; 4]%float).
  - apply Forall_cons; split; [by left|]. apply Forall_cons; split; [by right|]. apply Forall_nil_2.
  - reflexivity.
  - vm_compute. reflexivity.
Defined.

(** X18: for [i < j], the cells [(i, j)] and [(j, i)] of the distance
    matrix both hold [cosineDistance(embeddings[i], embeddings[j])]. *)
Theorem distance_matrix_entries embeddings i j a b :
  i < j → embeddings !! i = Some a → embeddings !! j = Some b →
  buildDistanceMatrix embeddings !! i ≫= (.!! j) = Some (cosineDistance a b) ∧
  buildDistanceMatrix embeddings !! j ≫= (.!! i) = Some (cosineDistance a b).
Proof.
  intros Hij Ha Hb.
  pose proof (lookup_lt_Some _ _ _ Ha). pose proof (lookup_lt_Some _ _ _ Hb).
  pose proof (buildDistanceMatrix_square embeddings) as Hsq.
  rewrite !(square_lookup _ _ _ _ Hsq) by done.
  rewrite !buildDistanceMatrix_get by done.
  rewrite (decide_True (P := i < j)) by done.
  rewrite (decide_False (P := j < i)) by lia.
  rewrite (decide_True (P := i < j)) by done.
  unfold cell. by rewrite Ha, Hb.
Qed.

(** X18, witness: the cells [(0, 2)] and [(2, 0)] of the scenario's matrix. *)
Lemma distance_matrix_entries_witness :
  buildDistanceMatrix scenario !! 0 ≫= (.!! 2) = Some (cosineDistance [1; 0] [0; 1])%float ∧
  buildDistanceMatrix scenario !! 2 ≫= (.!! 0) = Some (cosineDistance [1; 0] [0; 1])%float.
Proof.
  apply (distance_matrix_entries scenario 0 2 [1; 0]%float [0; 1]%float).
  - lia.
  - reflexivity.
  - reflexivity.
Defined.

(** X27: when every pairwise distance compares below [Infinity], [seriate]
    returns as many indices as there are vectors, and they are a
    permutation of [0 .. n-1]. *)
Theorem seriate_permutation embeddings :
  comparable_distances embeddings = true →
  ∃ order, seriate embeddings = Returns order ∧
    length order = length embeddings ∧
    order ≡ₚ Z.of_nat <$> seq 0 (length embeddings).
Proof. apply seriate_returns_permutation. Qed.

(** X27, witness: the three vectors of the specification's scenario. *)
Lemma seriate_permutation_witness :
  ∃ order, seriate scenario = Returns order ∧
    length order = 3 ∧ order ≡ₚ [0; 1; 2]%Z.
Proof. apply (seriate_permutation scenario). vm_compute. reflexivity. Defined.

(** X28: for two or more vectors whose pairwise distances all compare
    below [Infinity], the order starts with [0], and every later element is
    an unvisited index, no unvisited index is nearer to the previous
    element, and every smaller unvisited index is strictly farther. *)
Theorem seriate_greedy embeddings :
  2 ≤ length embeddings →
  comparable_distances embeddings = true →
  ∃ order, seriate embeddings = Returns order ∧
    greedy_order (buildDistanceMatrix embeddings) (length embeddings) order.
Proof.
  intros Hn Hcmp.
  destruct (seriate_spec embeddings Hcmp) as (order & Hrun & _ & _ & _ & Hgreedy).
  exists order. split; [done|]. by apply Hgreedy.
Qed.

(** X28, witness: the three vectors of the specification's scenario. *)
Lemma seriate_greedy_witness :
  ∃ order, seriate scenario = Returns order ∧
    greedy_order (buildDistanceMatrix scenario) 3 order.
Proof.
  apply (seriate_greedy scenario); [simpl; lia|vm_compute; reflexivity].
Defined.



(** X30: the distance of a vector to itself is exactly [0] whenever its
    sum of squares [s] is finite, is not zero, and is given back by
    squaring the computed norm: [sqrt(s) * sqrt(s) = s]. The quotient is
    then [s / s], which is exactly [1]. *)
Theorem cosineDistance_self_exact_norm a :
  is_finite (sum_of_squares a) = true → (sum_of_squares a =? 0)%float = false →
  (sqrt (sum_of_squares a) * sqrt (sum_of_squares a))%float = sum_of_squares a →
  cosineDistance a a = 0%float.
Proof.
  intros Hfin Hnz Hexact. rewrite cosineDistance_self, sum_squares_alt. cbv zeta.
  rewrite Hexact, Hnz.
  destruct (is_finite_cases _ Hfin) as [[s Hs]|(s & m & e & Hs)].
  - rewrite FloatAxioms.eqb_spec, Hs in Hnz. by destruct s.
  - by rewrite (float_div_self _ s m e Hs).
Qed.

(** X30, witness: the vector [3, 4], of norm [5]. *)
Lemma cosineDistance_self_exact_norm_witness :
  cosineDistance [3; 4]%float [3; 4]%float = 0%float.
Proof.
  apply (cosineDistance_self_exact_norm [3; 4]%float); vm_compute; reflexivity.
Defined.

(** * Properties of the ranks and of the column *)

(** X19: when the ids are distinct and the order lists distinct indices of
    the folder, the message at index [i], met at position [p] of the order,
    gets rank [p + 1]. *)
Theorem rank_is_position ids order p i id :
  NoDup ids → id ≠ "__proto__" → NoDup order → in_range (length ids) order →
  order !! p = Some (Z.of_nat i) → ids !! i = Some id →
  toRanks ids order !! id = Some (Z.of_nat p + 1)%Z.
Proof.
  intros Hids Hproto Horder Hrange Hp Hi.
  rewrite toRanks_lookup, decide_False by done.
  rewrite (last_pos_NoDup _ p); [done|by apply rank_keys_NoDup|].
  unfold rank_keys. rewrite list_lookup_fmap, Hp. simpl.
  unfold index_Z. rewrite decide_True by lia. by rewrite Nat2Z.id, Hi.
Qed.

(** X19, witness: the order [2, 0, 1] gives message C rank 1. *)
Lemma rank_is_position_witness :
  toRanks ["A"; "B"; "C"] [2; 0; 1]%Z !! "C" = Some (Z.of_nat 0 + 1)%Z.
Proof.
  apply (rank_is_position ["A"; "B"; "C"] [2; 0; 1]%Z 0 2 "C").
  - repeat (apply NoDup_cons; split; [set_solver|]). apply NoDup_nil_2.
  - discriminate.
  - repeat (apply NoDup_cons; split; [set_solver|]). apply NoDup_nil_2.
  - intros x Hx. simpl. rewrite !elem_of_cons, elem_of_nil in Hx. lia.
  - reflexivity.
  - reflexivity.
Defined.

(** X20: [setRanks] replaces the column's map: afterwards it holds exactly
    the entries of the object received, and nothing of what it held. *)
Theorem setRanks_replaces ranks current : setRanks ranks current = ranks.
Proof. apply setRanks_map. Qed.

(** X21: once the rank map of a finished run over fewer than [2^53 - 1]
    messages is set, the sort key of a ranked message is its rank, and it is
    below the sort key of every message without a rank. *)
Theorem ranked_sort_before_unranked w ranks messages current id other r :
  final (handleSeriate w) = Done ranks → mail w = Folder messages →
  (Z.of_nat (length messages) < MAX_SAFE_INTEGER)%Z →
  ranks !! id = Some r → ranks !! other = None →
  sortCallback (setRanks ranks current) id = r ∧
  (sortCallback (setRanks ranks current) id
   < sortCallback (setRanks ranks current) other)%Z.
Proof.
  intros Hdone Hmail Hsize Hid Hother.
  rewrite setRanks_map. unfold sortCallback. rewrite Hid, Hother. simpl.
  split; [done|].
  destruct (handleSeriate_Done_inv w ranks Hdone) as (key & messages' & _ & _ & Hmail' & _ & Hrun).
  rewrite Hmail in Hmail'. injection Hmail' as <-.
  rewrite Hrun in Hdone.
  destruct (seriate_messages_Done messages w ranks Hdone)
    as (cached & db' & calls & order & _ & Horder & -> & _).
  apply seriate_dyn_length in Horder. unfold embeddingArray in Horder.
  rewrite !length_fmap in Horder.
  apply toRanks_bounds in Hid as [Hr _]. lia.
Qed.

(** X21, witness: message B of the run with A and B cached, against an id
    that is not in the folder, in a column that showed an older rank. *)
Lemma ranked_sort_before_unranked_witness :
  sortCallback (setRanks (<["A" := 1%Z]> (<["B" := 2%Z]> (<["C" := 3%Z]> ∅)))
                  (<["old" := 7%Z]> ∅)) "B" = 2%Z ∧
  (sortCallback (setRanks (<["A" := 1%Z]> (<["B" := 2%Z]> (<["C" := 3%Z]> ∅)))
                   (<["old" := 7%Z]> ∅)) "B"
   < sortCallback (setRanks (<["A" := 1%Z]> (<["B" := 2%Z]> (<["C" := 3%Z]> ∅)))
                     (<["old" := 7%Z]> ∅)) "old")%Z.
Proof.
  apply (ranked_sort_before_unranked cached_world
           (<["A" := 1%Z]> (<["B" := 2%Z]> (<["C" := 3%Z]> ∅))) three_messages
           (<["old" := 7%Z]> ∅) "B" "old" 2%Z).
  - by rewrite cached_run.
  - reflexivity.
  - vm_compute. reflexivity.
  - reflexivity.
  - reflexivity.
Defined.

(** * Properties of the text extraction *)

(** X22: [extractBodyText] returns the first non-empty text the part tree
    offers in document order, and the empty string when there is none. A
    part of type text/plain or text/html with a non-empty body offers its
    text (for HTML, the text left after stripping) and hides its children;
    text/plain is not preferred to text/html. *)
Theorem extractBodyText_first_candidate p :
  extractBodyText p = default [] (head (filter (λ t, t ≠ []) (candidate_texts p))).
Proof.
  induction p as [c b children IH|c b] using part_induction; simpl.
  - destruct (bool_decide (c = Some "text/plain") && truthy b) eqn:Hplain.
    { by destruct b as [[|x b]|]; rewrite ?andb_false_r in Hplain. }
    destruct (bool_decide (c = Some "text/html") && truthy b) eqn:Hhtml.
    { by destruct (html_to_text (str b)) eqn:Htext. }
    induction IH as [|child rest Hchild _ IHrest]; [done|].
    rewrite filter_app, Hchild.
    destruct (filter (λ t, t ≠ []) (candidate_texts child)) as [|t ts] eqn:Hfilter; simpl.
    + apply IHrest.
    + assert (t ≠ []) as Ht.
      { assert (t ∈ filter (λ t, t ≠ []) (candidate_texts child)) as Hin
          by (rewrite Hfilter; left).
        by apply list_elem_of_filter in Hin as [? _]. }
      by destruct t.
  - destruct (bool_decide (c = Some "text/plain") && truthy b) eqn:Hplain.
    { by destruct b as [[|x b]|]; rewrite ?andb_false_r in Hplain. }
    destruct (bool_decide (c = Some "text/html") && truthy b) eqn:Hhtml; [|done].
    by destruct (html_to_text (str b)) eqn:Htext.
Qed.

(** X23: the text extracted from an HTML part with a non-empty body neither
    starts nor ends with white space, and each white-space code unit in it
    is a single space between two other code units. *)
Theorem html_text_is_normalized body children :
  body ≠ [] →
  trimmed (extractBodyText (Part (Some "text/html") (Some body) children)) ∧
  single_spaced (extractBodyText (Part (Some "text/html") (Some body) children)).
Proof.
  intros Hbody. destruct body as [|c body]; [done|]. cbn [extractBodyText].
  rewrite bool_decide_eq_false_2 by discriminate.
  rewrite bool_decide_eq_true_2 by done. cbn [andb truthy str default].
  split; [apply trim_trimmed|apply html_to_text_spaced].
Qed.

(** X23, witness. *)
Lemma html_text_is_normalized_witness :
  trimmed (extractBodyText (Part (Some "text/html") (Some html_body) None)) ∧
  single_spaced (extractBodyText (Part (Some "text/html") (Some html_body) None)).
Proof. apply (html_text_is_normalized html_body None). discriminate. Defined.

(** X24: in the text extracted from an HTML part with a non-empty body, no
    position starts a match of [/<[^>]+>/]: every tag has been removed. *)
Theorem html_text_has_no_tag body children k :
  body ≠ [] →
  match_tag (drop k (extractBodyText (Part (Some "text/html") (Some body) children))) = None.
Proof.
  intros Hbody. destruct body as [|c body]; [done|]. cbn [extractBodyText].
  rewrite bool_decide_eq_false_2 by discriminate.
  rewrite bool_decide_eq_true_2 by done. cbn [andb truthy str default].
  apply no_tag_match, no_tag_drop, html_to_text_no_tag.
Qed.

(** X24, witness. *)
Lemma html_text_has_no_tag_witness :
  match_tag (drop 0 (extractBodyText (Part (Some "text/html") (Some html_body) None))) = None.
Proof. apply (html_text_has_no_tag html_body None 0). discriminate. Defined.

(** X25: the text built for a message is at most 8017 code units longer
    than its subject and author together: the body contributes at most
    8000, the labels and line breaks 17. *)
Theorem extractMessageText_length_bound message fullMessage :
  (Z.of_nat (length (extractMessageText message fullMessage))
   ≤ Z.of_nat (length (str (subject message))) + Z.of_nat (length (str (author message)))
     + 8017)%Z.
Proof.
  unfold extractMessageText.
  pose proof (length_take (extractBodyText fullMessage) (N.to_nat 8000)) as Hbody.
  destruct (truthy (subject message)), (truthy (author message)),
    (truthy (Some (extractBodyText fullMessage)));
    cbn [app join_lines fmap list_fmap concat];
    rewrite ?app_nil_r, ?length_app, ?length_cons, ?length_app, ?lit_length, ?length_nil;
    cbn [String.length length]; lia.
Qed.

(** X26: the text built for a message is empty exactly when the subject and
    the author are missing or empty and no body text is found. *)
Theorem extractMessageText_empty_iff message fullMessage :
  extractMessageText message fullMessage = [] ↔
  truthy (subject message) = false ∧ truthy (author message) = false ∧
  extractBodyText fullMessage = [].
Proof.
  unfold extractMessageText.
  destruct (truthy (subject message)), (truthy (author message)),
    (extractBodyText fullMessage) as [|c text] eqn:Hbody;
    cbn [truthy app join_lines fmap list_fmap concat]; split; try done;
    try (by intros (? & ? & ?)).
Qed.
